(** * Auction auto-closer: the expiration sweep and its scheduler

    A shallow embedding of the auction repository of
    [internal/infra/database/auction/create_auction.go] and of the second
    variant of the same file that carries a mutex, followed by the
    properties of the lifecycle scheduler stated in the specification.

    The repository talks to three collaborators that are not part of it:
    the clock ([time.Now]), the process environment ([os.Getenv]) and the
    MongoDB collection ([InsertOne], [UpdateMany]).  They are modelled
    explicitly: clock readings and store outcomes are inputs of every
    operation, the collection is a finite map from [_id] to document. *)

From Stdlib Require Import ZArith Lia String Ascii List.
From Stdlib Require Import Floats.SpecFloat.
From stdpp Require Import gmap strings list fin_maps pretty.

Local Open Scope Z_scope.

(** ** Go's [time] package, as far as the repository uses it *)

Module GoTime.

(** [time.Duration] is an [int64] count of nanoseconds. *)
Definition Duration := Z.

Definition Nanosecond : Duration := 1.
Definition Microsecond : Duration := 1000 * Nanosecond.
Definition Millisecond : Duration := 1000 * Microsecond.
Definition Second : Duration := 1000 * Millisecond.
Definition Minute : Duration := 60 * Second.
Definition Hour : Duration := 60 * Minute.

Definition min_int64 : Z := - 2 ^ 63.
Definition max_int64 : Z := 2 ^ 63 - 1.

Definition is_int64 (z : Z) : Prop := min_int64 <= z <= max_int64.

(** Two's complement wrap-around of a mathematical integer to [int64]. *)
Definition wrap64 (z : Z) : Z := (z + 2 ^ 63) mod 2 ^ 64 - 2 ^ 63.

(** Unary minus on [int64]: [-d] wraps at the minimum value. *)
Definition neg (d : Duration) : Duration := wrap64 (- d).

(** [a / b] on [int64] truncates toward zero. *)
Definition div (a b : Duration) : Duration := Z.quot a b.

(** A wall-clock instant, as nanoseconds since the Unix epoch.  The
    saturation of [Time.Add] at the ends of the representable range of
    seconds (hundreds of billions of years away) is left out. *)
Definition Time := Z.

Definition Add (t : Time) (d : Duration) : Time := t + d.

(** [t.Unix()]: whole seconds since the epoch, rounded down. *)
Definition Unix (t : Time) : Z := t / Second.

(** *** [time.ParseDuration]

    The standard library's parser of duration strings, which the interval
    resolver calls.  A duration string is a possibly signed sequence of
    decimal numbers, each with an optional fraction and a unit suffix.
    The function works on the bytes of the string, accumulates in
    [uint64] and scales fractions in [float64]; the model does the same,
    with [spec_float] at precision 53 for binary64. *)

Inductive ParseError :=
| ErrInvalidDuration (orig : string)
| ErrMissingUnit (orig : string)
| ErrUnknownUnit (u orig : string).

Definition byte_of (c : ascii) : Z := Z.of_N (N_of_ascii c).

Definition is_digit (c : ascii) : bool := (48 <=? byte_of c) && (byte_of c <=? 57).

Definition is_dot (c : ascii) : bool := byte_of c =? 46.

Definition f64_prec : Z := 53.
Definition f64_emax : Z := 1024.

(** [float64(z)] for an unsigned integer: rounded to nearest, ties to even. *)
Definition f64_of_Z (z : Z) : spec_float := binary_normalize f64_prec f64_emax z 0 false.

(** [uint64(x)] for a float: the integer part.  The parser only converts
    finite values between 0 and the size of an hour in nanoseconds; the
    remaining cases give the value amd64 produces. *)
Definition uint64_of_f64 (x : spec_float) : Z :=
  match x with
  | S754_zero _ => 0
  | S754_finite false m e =>
      if 0 <=? e then Z.pos m * 2 ^ e else Z.pos m / 2 ^ (- e)
  | _ => 2 ^ 63
  end.

(** [leadingInt]: consumes the leading [[0-9]*] of [s]; [None] is
    [errLeadingInt], the overflow of the accumulated value. *)
Fixpoint leadingInt (x : Z) (s : string) : option (Z * string) :=
  match s with
  | String c s' =>
      if is_digit c then
        if 2 ^ 63 / 10 <? x then None
        else
          let x' := x * 10 + byte_of c - 48 in
          if 2 ^ 63 <? x' then None else leadingInt x' s'
      else Some (x, s)
  | EmptyString => Some (x, s)
  end.

(** [leadingFraction]: consumes the leading [[0-9]*] of [s]; on overflow it
    stops accumulating precision and keeps consuming digits. *)
Fixpoint leadingFraction (x : Z) (scale : spec_float) (overflow : bool) (s : string)
  : Z * spec_float * string :=
  match s with
  | String c s' =>
      if is_digit c then
        if overflow then leadingFraction x scale overflow s'
        else if (2 ^ 63 - 1) / 10 <? x then leadingFraction x scale true s'
        else
          let y := x * 10 + byte_of c - 48 in
          if 2 ^ 63 <? y then leadingFraction x scale true s'
          else leadingFraction y (SFmul f64_prec f64_emax scale (f64_of_Z 10)) false s'
      else (x, scale, s)
  | EmptyString => (x, scale, s)
  end.

(** The unit: the bytes up to the next ['.'] or digit. *)
Fixpoint span_unit (s : string) : string * string :=
  match s with
  | String c s' =>
      if is_dot c || is_digit c then (EmptyString, s)
      else let '(u, rest) := span_unit s' in (String c u, rest)
  | EmptyString => (EmptyString, EmptyString)
  end.

(** The two spellings of the micro sign, as UTF-8 bytes. *)
Definition micro_sign : string :=
  String (ascii_of_nat 194) (String (ascii_of_nat 181) EmptyString).
Definition greek_mu : string :=
  String (ascii_of_nat 206) (String (ascii_of_nat 188) EmptyString).

Definition unitMap (u : string) : option Z :=
  if String.eqb u "ns" then Some Nanosecond
  else if String.eqb u "us" then Some Microsecond
  else if String.eqb u (micro_sign ++ "s") then Some Microsecond
  else if String.eqb u (greek_mu ++ "s") then Some Microsecond
  else if String.eqb u "ms" then Some Millisecond
  else if String.eqb u "s" then Some Second
  else if String.eqb u "m" then Some Minute
  else if String.eqb u "h" then Some Hour
  else None.

(** One round of the loop [for s != ""]: a number, an optional fraction
    and a unit; gives the value of the group and the rest of the string. *)
Definition parse_group (orig s : string) : (Z * string) + ParseError :=
  match s with
  | EmptyString => inr (ErrInvalidDuration orig)
  | String c0 _ =>
      if negb (is_dot c0 || is_digit c0) then inr (ErrInvalidDuration orig)
      else
        match leadingInt 0 s with
        | None => inr (ErrInvalidDuration orig)
        | Some (v, s1) =>
            let pre := negb (String.length s =? String.length s1)%nat in
            let '(f, scale, s2, post) :=
              match s1 with
              | String c s1' =>
                  if is_dot c then
                    let '(f, scale, s2) := leadingFraction 0 (f64_of_Z 1) false s1' in
                    (f, scale, s2, negb (String.length s1' =? String.length s2)%nat)
                  else (0, f64_of_Z 1, s1, false)
              | EmptyString => (0, f64_of_Z 1, s1, false)
              end in
            if negb pre && negb post then inr (ErrInvalidDuration orig)
            else
              let '(u, s3) := span_unit s2 in
              if String.eqb u "" then inr (ErrMissingUnit orig)
              else
                match unitMap u with
                | None => inr (ErrUnknownUnit u orig)
                | Some unit =>
                    if 2 ^ 63 / unit <? v then inr (ErrInvalidDuration orig)
                    else
                      let v1 := v * unit in
                      let v2 :=
                        if 0 <? f then
                          v1 + uint64_of_f64
                                 (SFmul f64_prec f64_emax (f64_of_Z f)
                                    (SFdiv f64_prec f64_emax (f64_of_Z unit) scale))
                        else v1 in
                      if (0 <? f) && (2 ^ 63 <? v2) then inr (ErrInvalidDuration orig)
                      else inl (v2, s3)
                end
        end
  end.

(** The loop [for s != ""], with [d] the [uint64] sum so far.  Every round
    consumes at least the unit, so [fuel] at the length of [s] is never
    used up; the last branch is the one place it would show. *)
Fixpoint parse_groups (fuel : nat) (orig : string) (d : Z) (s : string)
  : Z + ParseError :=
  match s with
  | EmptyString => inl d
  | _ =>
      match fuel with
      | O => inr (ErrInvalidDuration orig)
      | S fuel' =>
          match parse_group orig s with
          | inr e => inr e
          | inl (v, rest) =>
              let d' := (d + v) mod 2 ^ 64 in
              if 2 ^ 63 <? d' then inr (ErrInvalidDuration orig)
              else parse_groups fuel' orig d' rest
          end
      end
  end.

Definition ParseDuration (s : string) : Duration + ParseError :=
  let orig := s in
  let '(neg_sign, s) :=
    match s with
    | String c s' =>
        if (byte_of c =? 45) || (byte_of c =? 43) then (byte_of c =? 45, s')
        else (false, s)
    | EmptyString => (false, s)
    end in
  if String.eqb s "0" then inl 0
  else if String.eqb s "" then inr (ErrInvalidDuration orig)
  else
    match parse_groups (String.length s) orig 0 s with
    | inr e => inr e
    | inl d =>
        if neg_sign then inl (neg (wrap64 d))
        else if 2 ^ 63 - 1 <? d then inr (ErrInvalidDuration orig)
        else inl d
    end.

End GoTime.

Import GoTime.

(** ** The domain package [auction_entity] *)

Module auction_entity.

(** Modelled from the spec: the declaration of [AuctionStatus] is not
    among the sources; the persisted shape is
    [status: int (0=Active,1=Completed)]. *)
Definition AuctionStatus := Z.
Definition Active : AuctionStatus := 0.
Definition Completed : AuctionStatus := 1.

(** Modelled from the spec: [ProductCondition] is one of the "other
    descriptive fields", opaque to the scheduler; an integer code. *)
Definition ProductCondition := Z.

(** Modelled from the spec: the domain entity handed to
    [CreateAuction]; its fields are the ones the repository reads. *)
Record Auction := {
  Id : string;
  ProductName : string;
  Category : string;
  Description : string;
  Condition : ProductCondition;
  Status : AuctionStatus;
  Timestamp : Time
}.

End auction_entity.

(** ** Documents and the collection *)

Record AuctionEntityMongo := {
  Id : string;
  ProductName : string;
  Category : string;
  Description : string;
  Condition : auction_entity.ProductCondition;
  Status : auction_entity.AuctionStatus;
  Timestamp : Z
}.

(** The collection: documents keyed by their unique [_id]. *)
Abbreviation Collection := (gmap string AuctionEntityMongo).

(** The two filter operators the variants use on [timestamp]. *)
Inductive CmpOp := OpLte | OpLt.

(** [bson.M{"status": s, "timestamp": bson.M{op: t}}] *)
Record Filter := {
  f_status : auction_entity.AuctionStatus;
  f_op : CmpOp;
  f_timestamp : Z
}.

(** [bson.M{"$set": bson.M{"status": s}}] *)
Record Update := { set_status : auction_entity.AuctionStatus }.

Definition cmp_holds (op : CmpOp) (x y : Z) : bool :=
  match op with
  | OpLte => x <=? y
  | OpLt => x <? y
  end.

Definition matches (f : Filter) (d : AuctionEntityMongo) : bool :=
  (Status d =? f_status f) && cmp_holds (f_op f) (Timestamp d) (f_timestamp f).

Definition apply_set (u : Update) (d : AuctionEntityMongo) : AuctionEntityMongo :=
  {| Id := Id d;
     ProductName := ProductName d;
     Category := Category d;
     Description := Description d;
     Condition := Condition d;
     Status := set_status u;
     Timestamp := Timestamp d |}.

Definition update_doc (f : Filter) (u : Update) (d : AuctionEntityMongo)
  : AuctionEntityMongo :=
  if matches f d then apply_set u d else d.

(** A matched document counts as modified when the update changes it. *)
Definition modifies (f : Filter) (u : Update) (d : AuctionEntityMongo) : bool :=
  matches f d && negb (Status d =? set_status u).

Record UpdateResult := { MatchedCount : Z; ModifiedCount : Z }.

Definition count_docs (p : AuctionEntityMongo → bool) (c : Collection) : Z :=
  Z.of_nat (size (filter (λ kv, p kv.2 = true) c)).

(** ** The world the repository acts on *)

Definition Error := string.

Inductive StoreCall :=
| CallInsertOne (d : AuctionEntityMongo)
| CallUpdateMany (f : Filter) (u : Update).

Inductive LogEntry :=
| LogError (msg : string) (err : Error)
| LogInfo (msg : string) (fields : list (string * Z)).

Record World := {
  store : Collection;
  calls : list StoreCall;
  logs : list LogEntry
}.

Definition logger_Error (msg : string) (err : Error) (w : World) : World :=
  {| store := store w; calls := calls w; logs := logs w ++ [LogError msg err] |}.

Definition logger_Info (msg : string) (fields : list (string * Z)) (w : World)
  : World :=
  {| store := store w; calls := calls w; logs := logs w ++ [LogInfo msg fields] |}.

(** [Collection.UpdateMany] is one round trip: the request goes out,
    recorded in [calls], and the store answers.  When it answers with an
    error the request has not been applied; when it succeeds every match
    has been updated in that one step. *)
Definition UpdateMany_request (f : Filter) (u : Update) (w : World) : World :=
  {| store := store w; calls := calls w ++ [CallUpdateMany f u]; logs := logs w |}.

Definition UpdateMany_answer (fault : option Error) (f : Filter) (u : Update) (w : World)
  : UpdateResult * option Error * World :=
  match fault with
  | Some e => ({| MatchedCount := 0; ModifiedCount := 0 |}, Some e, w)
  | None =>
      ({| MatchedCount := count_docs (matches f) (store w);
          ModifiedCount := count_docs (modifies f u) (store w) |}, None,
       {| store := update_doc f u <$> store w; calls := calls w; logs := logs w |})
  end.

Definition UpdateMany (fault : option Error) (f : Filter) (u : Update) (w : World)
  : UpdateResult * option Error * World :=
  UpdateMany_answer fault f u (UpdateMany_request f u w).

(** [Collection.InsertOne]: [_id] is unique, a second document with the
    same [_id] is refused with a duplicate-key error. *)
Definition InsertOne (fault : option Error) (d : AuctionEntityMongo) (w : World)
  : option Error * World :=
  let issued := calls w ++ [CallInsertOne d] in
  match fault with
  | Some e => (Some e, {| store := store w; calls := issued; logs := logs w |})
  | None =>
      match store w !! Id d with
      | Some _ =>
          (Some "E11000 duplicate key error"%string,
           {| store := store w; calls := issued; logs := logs w |})
      | None =>
          (None, {| store := <[Id d := d]> (store w); calls := issued; logs := logs w |})
      end
  end.


(** ** The process environment *)

(** [os.Getenv]: the value of the variable, empty when it is not set. *)
Definition Getenv (env : gmap string string) (key : string) : string :=
  default "" (env !! key).

(** ** The repository, shared by both variants

    [Collection] is the handle on the one collection the repository works
    on, the [store] of the world; the record keeps its name.  The mutex of
    the second variant has its state in the thread model. *)

Record AuctionRepository := {
  CollectionName : string;
  auctionInterval : Duration
}.

Definition getAuctionInterval (env : gmap string string) : Duration :=
  let auctionInterval := Getenv env "AUCTION_INTERVAL" in
  match ParseDuration auctionInterval with
  | inr _ => Minute * 5
  | inl duration => duration
  end.

(** The constructors; the goroutine they start is [startAuctionCloser]
    below, run on the sequence of outcomes of its [select]. *)
Definition NewAuctionRepositoryWithCollection
  (env : gmap string string) (collectionName : string) : AuctionRepository :=
  {| CollectionName := collectionName; auctionInterval := getAuctionInterval env |}.

Definition NewAuctionRepository (env : gmap string string) : AuctionRepository :=
  NewAuctionRepositoryWithCollection env "auctions".

Inductive InternalError :=
| NewInternalServerError (msg : string).

Definition CreateAuction (fault : option Error) (auctionEntity : auction_entity.Auction)
  (w : World) : option InternalError * World :=
  let auctionEntityMongo :=
    {| Id := auction_entity.Id auctionEntity;
       ProductName := auction_entity.ProductName auctionEntity;
       Category := auction_entity.Category auctionEntity;
       Description := auction_entity.Description auctionEntity;
       Condition := auction_entity.Condition auctionEntity;
       Status := auction_entity.Status auctionEntity;
       Timestamp := Unix (auction_entity.Timestamp auctionEntity) |} in
  let '(err, w1) := InsertOne fault auctionEntityMongo w in
  match err with
  | Some e =>
      (Some (NewInternalServerError "Error trying to insert auction"),
       logger_Error "Error trying to insert auction" e w1)
  | None => (None, w1)
  end.

(** What one sweep receives from outside: the reading of [time.Now] for
    the threshold, the later reading the guarded variant logs, and the
    answer of the store. *)
Record SweepEnv := {
  now : Time;
  now_logged : Time;
  fault : option Error
}.

(** ** [create_auction.go]: the plain variant *)

Module create_auction.

Definition closeExpiredAuctions (ar : AuctionRepository) (e : SweepEnv) (w : World)
  : World :=
  let expirationThreshold := Unix (Add (now e) (neg (auctionInterval ar))) in
  let filter :=
    {| f_status := auction_entity.Active;
       f_op := OpLte;
       f_timestamp := expirationThreshold |} in
  let update := {| set_status := auction_entity.Completed |} in
  let '(result, err, w1) := UpdateMany (fault e) filter update w in
  match err with
  | Some err =>
      logger_Error "Error trying to close expired auctions" err w1
  | None =>
      if 0 <? ModifiedCount result then
        logger_Info
          ("Successfully closed " +:+ pretty (ModifiedCount result)
             +:+ " expired auction(s)") [] w1
      else w1
  end.

End create_auction.

(** ** The variant with the mutex

    [ar.mutex.Lock()] and the deferred [Unlock] bracket the whole body.
    Run by one caller the lock is free on entry and free again on return,
    so the sequential function is the body; the lock itself is a step of
    the thread model further down. *)

Module guarded.

Definition closeExpiredAuctions (ar : AuctionRepository) (e : SweepEnv) (w : World)
  : World :=
  let expirationThreshold := Unix (Add (now e) (neg (auctionInterval ar))) in
  let filter :=
    {| f_status := auction_entity.Active;
       f_op := OpLt;
       f_timestamp := expirationThreshold |} in
  let update := {| set_status := auction_entity.Completed |} in
  let w0 :=
    logger_Info "Checking for expired auctions"
      [("threshold", expirationThreshold); ("now", Unix (now_logged e))] w in
  let '(result, err, w1) := UpdateMany (fault e) filter update w0 in
  match err with
  | Some err =>
      logger_Error "Error trying to close expired auctions" err w1
  | None =>
      if 0 <? ModifiedCount result then
        logger_Info "Successfully closed expired auctions"
          [("count", ModifiedCount result)] w1
      else logger_Info "No expired auctions found" [] w1
  end.

End guarded.

(** The two variants of the file. *)
Inductive Impl := Plain | Guarded.

Definition closeExpiredAuctions (v : Impl)
  : AuctionRepository → SweepEnv → World → World :=
  match v with
  | Plain => create_auction.closeExpiredAuctions
  | Guarded => guarded.closeExpiredAuctions
  end.

(** ** The scheduler loop *)

(** [time.NewTicker d] panics unless [d] is positive. *)
Definition NewTicker (d : Duration) : option Duration :=
  if 0 <? d then Some d else None.

Definition checkInterval (ar : AuctionRepository) : Duration :=
  let checkInterval := div (auctionInterval ar) 2 in
  if checkInterval <? Second then Second else checkInterval.

(** The case the [select] of one round of the loop takes. *)
Inductive SelectCase :=
| CtxDone
| TickerC (e : SweepEnv).

Inductive LoopStatus :=
| Panicked
| Waiting
| Returned.

(** [for { select { ... } }] on the cases taken, in order.  The loop
    returns at the first [CtxDone] and never looks at what follows; when
    the cases run out it is blocked in [select]. *)
Fixpoint closer_loop (v : Impl) (ar : AuctionRepository) (cases : list SelectCase)
  (w : World) : LoopStatus * World :=
  match cases with
  | [] => (Waiting, w)
  | CtxDone :: _ => (Returned, w)
  | TickerC e :: rest => closer_loop v ar rest (closeExpiredAuctions v ar e w)
  end.

(** What a run of [startAuctionCloser] leaves: the period of its ticker,
    whether the deferred [ticker.Stop()] has run, how the loop stands and
    the world. *)
Record CloserRun := {
  ticker : option Duration;
  ticker_stopped : bool;
  status : LoopStatus;
  final : World
}.

Definition startAuctionCloser (v : Impl) (ar : AuctionRepository)
  (cases : list SelectCase) (w : World) : CloserRun :=
  match NewTicker (checkInterval ar) with
  | None => {| ticker := None; ticker_stopped := false; status := Panicked; final := w |}
  | Some period =>
      let '(st, w') := closer_loop v ar cases w in
      {| ticker := Some period;
         ticker_stopped := match st with Returned => true | _ => false end;
         status := st;
         final := w' |}
  end.

(** ** Cancellation

    What the [select] of one round finds: whether [ctx.Done()] is closed,
    whether a tick waits in [ticker.C] (with what the sweep it would start
    receives), and which case the runtime takes when both are ready.
    With neither ready the loop stays blocked. *)

Record Select := {
  ctx_done : bool;
  tick_ready : option SweepEnv;
  prefers_tick : bool
}.

Definition select_case (r : Select) : option SelectCase :=
  match ctx_done r, tick_ready r with
  | false, None => None
  | false, Some e => Some (TickerC e)
  | true, None => Some CtxDone
  | true, Some e => Some (if prefers_tick r then TickerC e else CtxDone)
  end.

(** The cases the loop takes over a sequence of rounds. *)
Definition taken (rounds : list Select) : list SelectCase := omap select_case rounds.

(** The sweeps the loop starts: the ticks taken before the first
    [CtxDone]. *)
Fixpoint served (cases : list SelectCase) : list SweepEnv :=
  match cases with
  | [] => []
  | CtxDone :: _ => []
  | TickerC e :: rest => e :: served rest
  end.

(** ** What a sweep asks of the store *)

(** The threshold both variants compute from the clock reading. *)
Definition expirationThreshold (ar : AuctionRepository) (t : Time) : Z :=
  Unix (Add t (neg (auctionInterval ar))).

Definition filter_op (v : Impl) : CmpOp :=
  match v with Plain => OpLte | Guarded => OpLt end.

(** The filter and the update of the one request a sweep sends. *)
Definition sweep_filter (v : Impl) (ar : AuctionRepository) (t : Time) : Filter :=
  {| f_status := auction_entity.Active;
     f_op := filter_op v;
     f_timestamp := expirationThreshold ar t |}.

Definition sweep_update : Update := {| set_status := auction_entity.Completed |}.

(** ** Operations of the core, in any order *)

Inductive Op :=
| OpCreate (fault : option Error) (a : auction_entity.Auction)
| OpSweep (e : SweepEnv).

Definition step (v : Impl) (ar : AuctionRepository) (op : Op) (w : World) : World :=
  match op with
  | OpCreate fault a => (CreateAuction fault a w).2
  | OpSweep e => closeExpiredAuctions v ar e w
  end.

Definition run (v : Impl) (ar : AuctionRepository) (ops : list Op) (w : World) : World :=
  foldl (λ w op, step v ar op w) w ops.

(** ** Callers of the sweep running side by side

    [closeExpiredAuctions] cut at the points where another caller can be
    scheduled: taking the mutex, sending the request, receiving the
    answer, and returning.  The plain variant has no mutex and enters at
    once; the guarded one enters only while the mutex is free and frees
    it on return ([defer ar.mutex.Unlock()]), error or not. *)

Module Threads.

Inductive Pc :=
| AtEntry
| InBody
| RoundTrip (t : Time)
| Reporting (t : Time) (result : UpdateResult) (err : option Error)
| Done (t : Time) (result : UpdateResult) (err : option Error).

Record System := {
  world : World;
  clock : Time;
  locked : bool;
  threads : list Pc
}.

Inductive Action :=
| Advance (dt : Z)
| Enter (i : nat)
| Send (i : nat)
| Answer (i : nat) (fault : option Error)
| Leave (i : nat).

Definition set_thread (i : nat) (p : Pc) (s : System) : System :=
  {| world := world s; clock := clock s; locked := locked s;
     threads := <[i := p]> (threads s) |}.

Definition set_world (w : World) (s : System) : System :=
  {| world := w; clock := clock s; locked := locked s; threads := threads s |}.

Definition set_locked (b : bool) (s : System) : System :=
  {| world := world s; clock := clock s; locked := b; threads := threads s |}.

(** From the clock reading to the request on the wire. *)
Definition send (v : Impl) (ar : AuctionRepository) (t : Time) (w : World) : World :=
  let expirationThreshold := Unix (Add t (neg (auctionInterval ar))) in
  let filter :=
    {| f_status := auction_entity.Active;
       f_op := filter_op v;
       f_timestamp := expirationThreshold |} in
  let update := {| set_status := auction_entity.Completed |} in
  match v with
  | Plain => UpdateMany_request filter update w
  | Guarded =>
      UpdateMany_request filter update
        (logger_Info "Checking for expired auctions"
           [("threshold", expirationThreshold); ("now", Unix t)] w)
  end.

(** From the answer to the return. *)
Definition report (v : Impl) (result : UpdateResult) (err : option Error) (w : World)
  : World :=
  match err with
  | Some err => logger_Error "Error trying to close expired auctions" err w
  | None =>
      match v with
      | Plain =>
          if 0 <? ModifiedCount result then
            logger_Info
              ("Successfully closed " +:+ pretty (ModifiedCount result)
                 +:+ " expired auction(s)") [] w
          else w
      | Guarded =>
          if 0 <? ModifiedCount result then
            logger_Info "Successfully closed expired auctions"
              [("count", ModifiedCount result)] w
          else logger_Info "No expired auctions found" [] w
      end
  end.

(** One step of the system; [None] when the step cannot be taken, as for
    a caller at [Lock] while the mutex is held. *)
Definition exec (v : Impl) (ar : AuctionRepository) (a : Action) (s : System)
  : option System :=
  match a with
  | Advance dt =>
      if 0 <=? dt then
        Some {| world := world s; clock := clock s + dt; locked := locked s;
                threads := threads s |}
      else None
  | Enter i =>
      match threads s !! i with
      | Some AtEntry =>
          match v with
          | Plain => Some (set_thread i InBody s)
          | Guarded =>
              if locked s then None
              else Some (set_thread i InBody (set_locked true s))
          end
      | _ => None
      end
  | Send i =>
      match threads s !! i with
      | Some InBody =>
          Some (set_thread i (RoundTrip (clock s))
                  (set_world (send v ar (clock s) (world s)) s))
      | _ => None
      end
  | Answer i fault =>
      match threads s !! i with
      | Some (RoundTrip t) =>
          let '(result, err, w) :=
            UpdateMany_answer fault (sweep_filter v ar t) sweep_update (world s) in
          Some (set_thread i (Reporting t result err) (set_world w s))
      | _ => None
      end
  | Leave i =>
      match threads s !! i with
      | Some (Reporting t result err) =>
          let s1 := set_thread i (Done t result err)
                      (set_world (report v result err (world s)) s) in
          match v with
          | Plain => Some s1
          | Guarded => Some (set_locked false s1)
          end
      | _ => None
      end
  end.

Fixpoint execs (v : Impl) (ar : AuctionRepository) (acts : list Action) (s : System)
  : option System :=
  match acts with
  | [] => Some s
  | a :: rest =>
      match exec v ar a s with
      | Some s' => execs v ar rest s'
      | None => None
      end
  end.

(** [n] callers arrive together; nobody holds the mutex. *)
Definition start (n : nat) (t : Time) (w : World) : System :=
  {| world := w; clock := t; locked := false; threads := replicate n AtEntry |}.

(** A caller is inside the body from [Lock] to the return. *)
Definition in_body (p : Pc) : bool :=
  match p with
  | InBody | RoundTrip _ | Reporting _ _ _ => true
  | AtEntry | Done _ _ _ => false
  end.

(** How many callers are inside the body. *)
Definition inside (l : list Pc) : nat :=
  foldr (λ p n, if in_body p then S n else n) 0%nat l.

(** The clock reading of a caller the store has answered without error,
    and the count it was given. *)
Definition answered (p : Pc) : option Time :=
  match p with
  | Reporting t _ None | Done t _ None => Some t
  | _ => None
  end.

Definition modified (p : Pc) : Z :=
  match p with
  | Reporting _ result None | Done _ result None => ModifiedCount result
  | _ => 0
  end.

Definition later (o : option Time) (t : Time) : option Time :=
  match o with
  | None => Some t
  | Some m => Some (Z.max m t)
  end.

(** The latest reading among the answered callers, and the sum of their
    counts. *)
Definition latest (l : list Pc) : option Time :=
  foldr (λ p acc, match answered p with Some t => later acc t | None => acc end) None l.

Definition total_modified (l : list Pc) : Z :=
  foldr (λ p acc, modified p + acc) 0 l.

(** The store after one sweep at reading [o], if any. *)
Definition swept (v : Impl) (ar : AuctionRepository) (o : option Time) (c : Collection)
  : Collection :=
  match o with
  | None => c
  | Some t => update_doc (sweep_filter v ar t) sweep_update <$> c
  end.

Definition swept_count (v : Impl) (ar : AuctionRepository) (o : option Time)
  (c : Collection) : Z :=
  match o with
  | None => 0
  | Some t => count_docs (modifies (sweep_filter v ar t) sweep_update) c
  end.

(** *** The two invariants *)

(** The mutex is held exactly while one caller is inside the body. *)
Definition guard_inv (s : System) : Prop :=
  inside (threads s) = if locked s then 1%nat else 0%nat.

(** The store is the initial one swept once at the latest answered
    reading, and the counts given so far add up to that one sweep's. *)
Definition ledger_inv (v : Impl) (ar : AuctionRepository) (c0 : Collection)
  (s : System) : Prop :=
  store (world s) = swept v ar (latest (threads s)) c0 ∧
  total_modified (threads s) = swept_count v ar (latest (threads s)) c0.

End Threads.

(** ** Fixtures: a repository configured with ["2s"] and two auctions *)

Definition repo_2s : AuctionRepository :=
  NewAuctionRepository {[ "AUCTION_INTERVAL" := "2s" ]}.

Definition auction_at (id : string) (st : auction_entity.AuctionStatus) (ts : Z)
  : AuctionEntityMongo :=
  {| Id := id;
     ProductName := "Test Product";
     Category := "Test Category";
     Description := "Test Description for the auction";
     Condition := 1;
     Status := st;
     Timestamp := ts |}.

Definition two_auctions : World :=
  {| store :=
       <["test-auction-expired" := auction_at "test-auction-expired" auction_entity.Active 97]>
         (<["test-auction-active" := auction_at "test-auction-active" auction_entity.Active 100]> ∅);
     calls := [];
     logs := [] |}.

Definition tick_at (seconds : Z) (fault : option Error) : SweepEnv :=
  {| now := seconds * Second; now_logged := seconds * Second; fault := fault |}.

(** An Active auction as handed to [CreateAuction], created at [t]. *)
Definition auction_created (id : string) (t : Time) : auction_entity.Auction :=
  {| auction_entity.Id := id;
     auction_entity.ProductName := "Test Product";
     auction_entity.Category := "Test Category";
     auction_entity.Description := "Test Description for the auction";
     auction_entity.Condition := 1;
     auction_entity.Status := auction_entity.Active;
     auction_entity.Timestamp := t |}.

Definition empty_world : World := {| store := ∅; calls := []; logs := [] |}.

(** Ticks at the given seconds, all answered by the store. *)
Definition ticks_at (seconds : list Z) : list SelectCase :=
  (λ sec, TickerC (tick_at sec None)) <$> seconds.

(** Duration strings with their values, and strings that are no
    duration: signs, fractions, every unit, sums of groups, the ends of
    the [int64] range and the overflows just beyond them. *)
Definition durations : list (string * Duration) :=
  [("0", 0); ("5s", 5 * Second); ("-5s", - 5 * Second); ("+5s", 5 * Second);
   ("-0", 0); ("+0", 0);
   ("5.6s", 5 * Second + 600 * Millisecond); ("5.s", 5 * Second);
   (".5s", 500 * Millisecond); ("1.0040s", 1 * Second + 4 * Millisecond);
   ("10ns", 10 * Nanosecond); ("11us", 11 * Microsecond);
   ("12" +:+ micro_sign +:+ "s", 12 * Microsecond);
   ("12" +:+ greek_mu +:+ "s", 12 * Microsecond);
   ("13ms", 13 * Millisecond); ("14s", 14 * Second); ("15m", 15 * Minute);
   ("16h", 16 * Hour);
   ("3h30m", 3 * Hour + 30 * Minute);
   ("10.5s4m", 4 * Minute + 10 * Second + 500 * Millisecond);
   ("-2m3.4s", - (2 * Minute + 3 * Second + 400 * Millisecond));
   ("1h2m3s4ms5us6ns",
    1 * Hour + 2 * Minute + 3 * Second + 4 * Millisecond + 5 * Microsecond
    + 6 * Nanosecond);
   ("0.3333333333333333333h", 20 * Minute);
   ("9007199254740993ns", (2 ^ 53 + 1) * Nanosecond);
   ("9223372036854775807ns", max_int64);
   ("9223372036854775.807us", max_int64);
   ("9223372036s854ms775us807ns", max_int64);
   ("-9223372036854775808ns", min_int64);
   ("-9223372036854775.808us", min_int64);
   ("-2562047h47m16.854775808s", min_int64);
   ("0.100000000000000000000h", 6 * Minute);
   ("0.830103483285477580700h", 49 * Minute + 48 * Second + 372539827 * Nanosecond)].

Definition not_durations : list string :=
  [""; "3"; "300"; "-"; "s"; "."; "-."; ".s"; "+.s"; "1d"; "5 s"; "1e3s";
   "9223372036854775810ns"; "9223372036854775808ns"; "-9223372036854775809ns";
   "3000000h"; "9223372036854775.808us"; "9223372036854ms775us808ns"].

(** The least duration the parser accepts. *)
Definition repo_min : AuctionRepository :=
  NewAuctionRepository {[ "AUCTION_INTERVAL" := "-9223372036854775808ns" ]}.

Definition repo_zero : AuctionRepository :=
  NewAuctionRepository {[ "AUCTION_INTERVAL" := "0" ]}.

Definition repo_minus_5s : AuctionRepository :=
  NewAuctionRepository {[ "AUCTION_INTERVAL" := "-5s" ]}.

(** ** Measures used to state what the operations do *)

(** The document [CreateAuction] hands to [InsertOne]. *)
Definition document_of (a : auction_entity.Auction) : AuctionEntityMongo :=
  {| Id := auction_entity.Id a;
     ProductName := auction_entity.ProductName a;
     Category := auction_entity.Category a;
     Description := auction_entity.Description a;
     Condition := auction_entity.Condition a;
     Status := auction_entity.Status a;
     Timestamp := Unix (auction_entity.Timestamp a) |}.

(** The same entity with another creation instant. *)
Definition created_at (a : auction_entity.Auction) (t : Time) : auction_entity.Auction :=
  {| auction_entity.Id := auction_entity.Id a;
     auction_entity.ProductName := auction_entity.ProductName a;
     auction_entity.Category := auction_entity.Category a;
     auction_entity.Description := auction_entity.Description a;
     auction_entity.Condition := auction_entity.Condition a;
     auction_entity.Status := auction_entity.Status a;
     auction_entity.Timestamp := t |}.

(** How many documents of the collection carry the status [s]. *)
Definition count_status (s : auction_entity.AuctionStatus) (c : Collection) : Z :=
  count_docs (λ d, Status d =? s) c.

(** The latest clock reading among the sweeps the store answered. *)
Definition latest_applied (es : list SweepEnv) : option Time :=
  foldl (λ acc e, match fault e with
                  | None => Threads.later acc (now e)
                  | Some _ => acc
                  end) None es.

(** The request a sweep at the clock reading of [e] sends. *)
Definition request_of (v : Impl) (ar : AuctionRepository) (e : SweepEnv) : StoreCall :=
  CallUpdateMany (sweep_filter v ar (now e)) sweep_update.

(** The steps a caller of the sweep still has to take: [Lock], the
    request, the answer and the return. *)
Definition remaining (p : Threads.Pc) : nat :=
  match p with
  | Threads.AtEntry => 4
  | Threads.InBody => 3
  | Threads.RoundTrip _ => 2
  | Threads.Reporting _ _ _ => 1
  | Threads.Done _ _ _ => 0
  end.

Definition pending (l : list Threads.Pc) : nat :=
  foldr (λ p n, (remaining p + n)%nat) 0%nat l.

(** The mutex as the variant has it: [create_auction.go] has none, so it
    is never held; with the mutex it is held while a caller is inside. *)
Definition lock_inv (v : Impl) (s : Threads.System) : Prop :=
  match v with
  | Plain => Threads.locked s = false
  | Guarded => Threads.guard_inv s
  end.


(** A numeral followed by [u]: a digit first, [u] what is left once the
    number [x] has been read. *)
Definition numeral_before (s : string) (x : Z) (u : string) : Prop :=
  (∃ c s', s = String c s' ∧ is_digit c = true ∧
     (String.length u <= String.length s')%nat) ∧
  leadingInt 0 s = leadingInt x u.

(** Whether one of the sweeps, answered by the store, matches [d]. *)
Definition closed_by (v : Impl) (ar : AuctionRepository) (es : list SweepEnv)
  (d : AuctionEntityMongo) : bool :=
  existsb (λ e, bool_decide (fault e = None) && matches (sweep_filter v ar (now e)) d) es.

(** ** The tests of the repository

    [create_auction_test.go] drives the repository from outside: it
    sets the interval to two seconds, builds the repository on an empty
    collection, creates auctions, sleeps and reads them back, while the
    closer that the constructor has started sweeps in the background.
    What a test sees depends on the clock readings of its own
    [time.Now()] calls, on what the store answers to its insertions and
    to its reads, and on the sweeps the closer gets to run between the
    steps of the test; these are the inputs of a run.  The tests are
    taken from the point where [getTestDatabase] has handed them a
    database and [collection.Drop] has emptied the collection, and up to
    their verdict; the deferred clean-up runs after it.

    The file holds two versions of each test.  The first goes with
    [create_auction.go] and can be built against either variant of the
    repository; the second calls [NewAuctionRepositoryWithCollection],
    which only the variant with the mutex has. *)

(** [os.Setenv] *)
Definition Setenv (key value : string) (env : gmap string string) : gmap string string :=
  <[key := value]> env.

(** [collection.FindOne(ctx, bson.M{"_id": id}).Decode(&result)]: the
    document, or the error of the store or of the driver; with no
    document under the id the error is [mongo.ErrNoDocuments]. *)
Definition FindOne (fault : option Error) (id : string) (w : World)
  : AuctionEntityMongo + Error :=
  match fault with
  | Some e => inr e
  | None =>
      match store w !! id with
      | Some d => inl d
      | None => inr "mongo: no documents in result"%string
      end
  end.

(** What a test reports: [t.Errorf] with its format and integer
    arguments, [t.Fatalf] with its format, which ends the test. *)
Inductive TestLog :=
| Errorf (format : string) (args : list Z)
| Fatalf (format : string).

(** A run of [TestAutoCloseAuction]. *)
Record CloseRun := {
  now_expired : Time;
  now_active : Time;
  insert_expired : option Error;
  insert_active : option Error;
  read_expired : option Error;
  read_active : option Error;
  sweeps_at_start : list SweepEnv;
  sweeps_between : list SweepEnv;
  sweeps_asleep : list SweepEnv;
  sweeps_reading : list SweepEnv
}.

(** A run of [TestAutoCloseAuctionAfterExpiration]. *)
Record TransitionRun := {
  now_created : Time;
  insert_created : option Error;
  read_fresh : option Error;
  read_late : option Error;
  sweeps_first : list SweepEnv;
  sweeps_fresh : list SweepEnv;
  sweeps_waiting : list SweepEnv
}.

Section Tests.

(** The condition codes of [auction_entity], which the scheduler never
    reads. *)
Variables New Used Refurbished : auction_entity.ProductCondition.

(** The closer at work between two steps of a test: the sweeps of the
    ticks its loop takes meanwhile. *)
Definition closer (v : Impl) (repo : AuctionRepository) (es : list SweepEnv) (w : World)
  : World :=
  run v repo (OpSweep <$> es) w.

(** The two reads at the end of [TestAutoCloseAuction], the same in
    both versions. *)
Definition read_both (v : Impl) (repo : AuctionRepository) (x : CloseRun) (w : World)
  : list TestLog :=
  match FindOne (read_expired x) "test-auction-expired" w with
  | inr _ => [Fatalf "Failed to find expired auction: %v"]
  | inl expiredResult =>
      let errors :=
        if negb (Status expiredResult =? auction_entity.Completed) then
          [Errorf "Expected expired auction status to be Completed (%d), got %d"
             [auction_entity.Completed; Status expiredResult]]
        else [] in
      let w := closer v repo (sweeps_reading x) w in
      match FindOne (read_active x) "test-auction-active" w with
      | inr _ => errors ++ [Fatalf "Failed to find active auction: %v"]
      | inl activeResult =>
          errors ++
          if negb (Status activeResult =? auction_entity.Active) then
            [Errorf "Expected active auction status to be Active (%d), got %d"
               [auction_entity.Active; Status activeResult]]
          else []
      end
  end.

(** The two creations of [TestAutoCloseAuction] and what follows; the
    versions differ in how the second auction is dated.  While the test
    is busy or asleep between two of its steps the closer runs its
    sweeps. *)
Definition create_both (v : Impl) (repo : AuctionRepository) (dated : Time → Time)
  (x : CloseRun) : list TestLog :=
  let w := closer v repo (sweeps_at_start x) empty_world in
  let expiredAuction :=
    {| auction_entity.Id := "test-auction-expired";
       auction_entity.ProductName := "Test Product";
       auction_entity.Category := "Test Category";
       auction_entity.Description := "Test Description for the auction";
       auction_entity.Condition := New;
       auction_entity.Status := auction_entity.Active;
       auction_entity.Timestamp := Add (now_expired x) (-3 * Second) |} in
  let '(err, w) := CreateAuction (insert_expired x) expiredAuction w in
  match err with
  | Some _ => [Fatalf "Failed to create expired auction: %v"]
  | None =>
      let w := closer v repo (sweeps_between x) w in
      let activeAuction :=
        {| auction_entity.Id := "test-auction-active";
           auction_entity.ProductName := "Active Product";
           auction_entity.Category := "Test Category";
           auction_entity.Description := "This auction should stay open";
           auction_entity.Condition := Used;
           auction_entity.Status := auction_entity.Active;
           auction_entity.Timestamp := dated (now_active x) |} in
      let '(err, w) := CreateAuction (insert_active x) activeAuction w in
      match err with
      | Some _ => [Fatalf "Failed to create active auction: %v"]
      | None =>
          let w := closer v repo (sweeps_asleep x) w in
          read_both v repo x w
      end
  end.

(** [TestAutoCloseAuctionAfterExpiration] from the repository on, the
    same in both versions. *)
Definition create_and_wait (v : Impl) (repo : AuctionRepository) (x : TransitionRun)
  : list TestLog :=
  let w := closer v repo (sweeps_first x) empty_world in
  let auctionEntity :=
    {| auction_entity.Id := "test-auction-transition";
       auction_entity.ProductName := "Transition Product";
       auction_entity.Category := "Electronics";
       auction_entity.Description := "This auction will expire during the test";
       auction_entity.Condition := Refurbished;
       auction_entity.Status := auction_entity.Active;
       auction_entity.Timestamp := now_created x |} in
  let '(err, w) := CreateAuction (insert_created x) auctionEntity w in
  match err with
  | Some _ => [Fatalf "Failed to create auction: %v"]
  | None =>
      let w := closer v repo (sweeps_fresh x) w in
      match FindOne (read_fresh x) "test-auction-transition" w with
      | inr _ => [Fatalf "Failed to find auction: %v"]
      | inl result =>
          let errors :=
            if negb (Status result =? auction_entity.Active) then
              [Errorf "Expected auction to be Active right after creation, got %d"
                 [Status result]]
            else [] in
          let w := closer v repo (sweeps_waiting x) w in
          match FindOne (read_late x) "test-auction-transition" w with
          | inr _ => errors ++ [Fatalf "Failed to find auction after expiration: %v"]
          | inl result =>
              errors ++
              if negb (Status result =? auction_entity.Completed) then
                [Errorf "Expected auction to be Completed after interval, got %d"
                   [Status result]]
              else []
          end
      end
  end.

End Tests.

(** The first version of the tests. *)
Module create_auction_test.

Definition TestAutoCloseAuction (New Used : auction_entity.ProductCondition) (v : Impl)
  (environ : gmap string string) (x : CloseRun) : list TestLog :=
  let environ := Setenv "AUCTION_INTERVAL" "2s" environ in
  let repo := NewAuctionRepository environ in
  create_both New Used v repo (λ now, now) x.

Definition TestAutoCloseAuctionAfterExpiration (Refurbished : auction_entity.ProductCondition)
  (v : Impl) (environ : gmap string string) (x : TransitionRun) : list TestLog :=
  let environ := Setenv "AUCTION_INTERVAL" "2s" environ in
  let repo := NewAuctionRepository environ in
  create_and_wait Refurbished v repo x.

End create_auction_test.

(** The second version, for the variant with the mutex: each test works
    on a collection of its own, named after the clock. *)
Module guarded_test.

Definition TestAutoCloseAuction (New Used : auction_entity.ProductCondition)
  (environ : gmap string string) (started : Time) (x : CloseRun) : list TestLog :=
  let environ := Setenv "AUCTION_INTERVAL" "2s" environ in
  let collectionName := "auctions_test_" +:+ pretty started in
  let repo := NewAuctionRepositoryWithCollection environ collectionName in
  create_both New Used Guarded repo (λ now, Add now (Second * 6)) x.

Definition TestAutoCloseAuctionAfterExpiration (Refurbished : auction_entity.ProductCondition)
  (environ : gmap string string) (started : Time) (x : TransitionRun) : list TestLog :=
  let environ := Setenv "AUCTION_INTERVAL" "2s" environ in
  let collectionName := "auctions_test_" +:+ pretty started in
  let repo := NewAuctionRepositoryWithCollection environ collectionName in
  create_and_wait Refurbished Guarded repo x.

End guarded_test.

(** A run of [TestAutoCloseAuction] in which the closer starts at
    100.5 s and the store answers everything. *)
Definition run_half_past : CloseRun :=
  {| now_expired := 100 * Second + 500100000;
     now_active := 100 * Second + 500200000;
     insert_expired := None;
     insert_active := None;
     read_expired := None;
     read_active := None;
     sweeps_at_start := [];
     sweeps_between := [];
     sweeps_asleep :=
       [{| now := 101 * Second + 500000000; now_logged := 101 * Second + 500000000;
           fault := None |};
        {| now := 102 * Second + 500000000; now_logged := 102 * Second + 500000000;
           fault := None |}];
     sweeps_reading := [] |}.

(** The same run, with the second read refused by the store. *)
Definition run_read_refused : CloseRun :=
  {| now_expired := now_expired run_half_past;
     now_active := now_active run_half_past;
     insert_expired := None;
     insert_active := None;
     read_expired := None;
     read_active := Some "context deadline exceeded"%string;
     sweeps_at_start := [];
     sweeps_between := [];
     sweeps_asleep := sweeps_asleep run_half_past;
     sweeps_reading := [] |}.

(** * Properties *)

(** Unfolds a sweep of either variant down to the store operations. *)
Ltac unfold_sweep :=
  unfold closeExpiredAuctions, create_auction.closeExpiredAuctions,
    guarded.closeExpiredAuctions, UpdateMany, UpdateMany_answer, UpdateMany_request.

(** Closes a bound between two integer literals. *)
Ltac by_evaluation := vm_compute; first [reflexivity | discriminate | split; discriminate].

Create HintDb sweep.

(** ** The scenarios of the repository's tests, run on the model

    [TestAutoCloseAuction]: interval two seconds, one auction created
    three seconds ago and one meant to stay open; after the ticks of the
    next seconds the first is Completed and the second still Active.  The
    test of the guarded variant dates the second auction six seconds
    ahead; the test of the plain variant dates it at the present second,
    and keeps it Active only until the tick two seconds later. *)

Example test_auto_close_guarded :
  let w := run Guarded repo_2s
             [OpCreate None (auction_created "test-auction-expired" (97 * Second));
              OpCreate None (auction_created "test-auction-active" (106 * Second + 500000000))]
             empty_world in
  let r := startAuctionCloser Guarded repo_2s (ticks_at [101; 102; 103]) w in
  status r = Waiting ∧
  Status <$> store (final r) !! "test-auction-expired" = Some auction_entity.Completed ∧
  Status <$> store (final r) !! "test-auction-active" = Some auction_entity.Active.
Proof. repeat split; vm_compute; reflexivity. Qed.

Example test_auto_close_plain :
  let w := run Plain repo_2s
             [OpCreate None (auction_created "test-auction-expired" (97 * Second));
              OpCreate None (auction_created "test-auction-active" (100 * Second))]
             empty_world in
  let r1 := startAuctionCloser Plain repo_2s (ticks_at [101]) w in
  let r2 := startAuctionCloser Plain repo_2s (ticks_at [101; 102]) w in
  Status <$> store (final r1) !! "test-auction-expired" = Some auction_entity.Completed ∧
  Status <$> store (final r1) !! "test-auction-active" = Some auction_entity.Active ∧
  Status <$> store (final r2) !! "test-auction-active" = Some auction_entity.Completed.
Proof. repeat split; vm_compute; reflexivity. Qed.

(** [TestAutoCloseAuctionAfterExpiration]: Active right after creation,
    Completed four seconds later, in both variants. *)
Example test_auto_close_after_expiration v :
  let w := run v repo_2s
             [OpCreate None (auction_created "test-auction-transition" (100 * Second))]
             empty_world in
  let r := startAuctionCloser v repo_2s (ticks_at [101; 102; 103; 104]) w in
  Status <$> store w !! "test-auction-transition" = Some auction_entity.Active ∧
  Status <$> store (final r) !! "test-auction-transition" = Some auction_entity.Completed.
Proof. destruct v; split; vm_compute; reflexivity. Qed.

(** ** Arithmetic of the threshold *)

Section Threshold.

Implicit Types (d : Duration) (t : Time) (ts : Z).

Lemma neg_opp d : min_int64 < d → d <= max_int64 → neg d = - d.
Proof.
  unfold neg, wrap64, min_int64, max_int64. intros Hlo Hhi.
  rewrite Z.mod_small; lia.
Qed.

Lemma neg_min_int64 : neg min_int64 = min_int64.
Proof. reflexivity. Qed.

Lemma neg_le_opp d : is_int64 d → neg d <= - d.
Proof.
  intros [Hlo Hhi]. destruct (Z.eq_dec d min_int64) as [->|Hne].
  - rewrite neg_min_int64. unfold min_int64. lia.
  - rewrite neg_opp; [lia| lia |done].
Qed.

Lemma Unix_ge_iff ts t : ts <= Unix t ↔ ts * Second <= t.
Proof.
  unfold Unix. change Second with 1000000000.
  split; intros H; Z.to_euclidean_division_equations; lia.
Qed.

Lemma Unix_gt_iff ts t : ts < Unix t ↔ (ts + 1) * Second <= t.
Proof.
  unfold Unix. change Second with 1000000000.
  split; intros H; Z.to_euclidean_division_equations; lia.
Qed.

End Threshold.

Lemma sweep_store v ar e w :
  store (closeExpiredAuctions v ar e w) =
    match fault e with
    | Some _ => store w
    | None => update_doc (sweep_filter v ar (now e)) sweep_update <$> store w
    end.
Proof.
  destruct v; unfold_sweep; destruct (fault e); simpl; try done; case_match; done.
Qed.

Lemma sweep_calls v ar e w :
  calls (closeExpiredAuctions v ar e w) =
    calls w ++ [CallUpdateMany (sweep_filter v ar (now e)) sweep_update].
Proof.
  destruct v; unfold_sweep; destruct (fault e); simpl; try done; case_match; done.
Qed.

Lemma matches_spec f d :
  matches f d = true ↔
    Status d = f_status f ∧ cmp_holds (f_op f) (Timestamp d) (f_timestamp f) = true.
Proof. unfold matches. rewrite andb_true_iff, Z.eqb_eq. done. Qed.

Lemma sweep_filter_matches v ar t d :
  matches (sweep_filter v ar t) d = true ↔
    Status d = auction_entity.Active ∧
    match v with
    | Plain => Timestamp d <= expirationThreshold ar t
    | Guarded => Timestamp d < expirationThreshold ar t
    end.
Proof.
  rewrite matches_spec. destruct v; simpl.
  - by rewrite Z.leb_le.
  - by rewrite Z.ltb_lt.
Qed.

(** In terms of instants: [createdAt] is the stored second, the threshold
    the instant [now - interval]. *)
Lemma sweep_filter_instant v ar t d :
  min_int64 < auctionInterval ar → auctionInterval ar <= max_int64 →
  matches (sweep_filter v ar t) d = true ↔
    Status d = auction_entity.Active ∧
    match v with
    | Plain => Timestamp d * Second <= t - auctionInterval ar
    | Guarded => (Timestamp d + 1) * Second <= t - auctionInterval ar
    end.
Proof.
  intros Hlo Hhi. rewrite sweep_filter_matches. unfold expirationThreshold, Add.
  rewrite neg_opp by done.
  destruct v; [rewrite Unix_ge_iff | rewrite Unix_gt_iff];
    by replace (t + - auctionInterval ar) with (t - auctionInterval ar) by lia.
Qed.

(** ** Counting documents *)

Section Counting.

Implicit Types (p q : AuctionEntityMongo → bool) (c : Collection).

Lemma count_docs_empty p : count_docs p ∅ = 0.
Proof. unfold count_docs. by rewrite map_filter_empty, map_size_empty. Qed.

Lemma count_docs_insert p c id d :
  c !! id = None →
  count_docs p (<[id:=d]> c) = (if p d then 1 else 0) + count_docs p c.
Proof.
  intros Hfresh. unfold count_docs. rewrite map_filter_insert.
  case_decide as Hd; simpl in Hd.
  - rewrite Hd, map_size_insert_None; [lia|].
    rewrite map_lookup_filter_None. by left.
  - destruct (p d); [done|]. rewrite delete_id by done. lia.
Qed.

Lemma count_docs_ext p q c :
  (∀ id d, c !! id = Some d → p d = q d) → count_docs p c = count_docs q c.
Proof.
  induction c as [|id d c Hfresh IH] using map_ind; intros Hpq.
  - by rewrite !count_docs_empty.
  - rewrite !count_docs_insert by done.
    rewrite (Hpq id d) by apply lookup_insert_eq.
    rewrite IH; [done|]. intros j x Hj. apply (Hpq j).
    rewrite lookup_insert_ne; [done|]. intros ->. congruence.
Qed.

Lemma count_docs_fmap p (g : AuctionEntityMongo → AuctionEntityMongo) c :
  count_docs p (g <$> c) = count_docs (λ d, p (g d)) c.
Proof.
  induction c as [|id d c Hfresh IH] using map_ind.
  - by rewrite fmap_empty, !count_docs_empty.
  - rewrite fmap_insert, !count_docs_insert, IH; [done..|].
    by rewrite lookup_fmap, Hfresh.
Qed.

Lemma count_docs_none p c :
  (∀ id d, c !! id = Some d → p d = false) → count_docs p c = 0.
Proof.
  intros Hp. rewrite (count_docs_ext p (λ _, false)) by done.
  induction c as [|id d c Hfresh IH] using map_ind.
  - apply count_docs_empty.
  - rewrite count_docs_insert by done. simpl. apply IH.
    intros j x Hj. apply (Hp j). rewrite lookup_insert_ne; [done|].
    intros ->. congruence.
Qed.

Lemma count_docs_split p q c :
  (∀ id d, c !! id = Some d → p d && q d = false) →
  count_docs (λ d, p d || q d) c = count_docs p c + count_docs q c.
Proof.
  induction c as [|id d c Hfresh IH] using map_ind; intros Hpq.
  - by rewrite !count_docs_empty.
  - rewrite !count_docs_insert by done.
    rewrite IH.
    + specialize (Hpq id d (lookup_insert_eq _ _ _)).
      destruct (p d), (q d); simpl in *; try discriminate; lia.
    + intros j x Hj. apply (Hpq j). rewrite lookup_insert_ne; [done|].
      intros ->. congruence.
Qed.

End Counting.

(** ** Effect of the update on one document *)

Lemma active_neq_completed : auction_entity.Active ≠ auction_entity.Completed.
Proof. discriminate. Qed.

Lemma update_doc_unmatched f u d : matches f d = false → update_doc f u d = d.
Proof. unfold update_doc. by intros ->. Qed.

Lemma update_doc_matched f u d : matches f d = true → update_doc f u d = apply_set u d.
Proof. unfold update_doc. by intros ->. Qed.

(** Once updated, a document no longer matches a filter on the old status. *)
Lemma matches_after_update f f' u d :
  f_status f = f_status f' → f_status f' ≠ set_status u →
  matches f d = true → matches f' (update_doc f u d) = false.
Proof.
  intros Hst Hne Hm. rewrite update_doc_matched by done.
  unfold matches. simpl. apply andb_false_iff. left. apply Z.eqb_neq. congruence.
Qed.

Lemma update_doc_idem f u d :
  f_status f ≠ set_status u → update_doc f u (update_doc f u d) = update_doc f u d.
Proof.
  intros Hne. destruct (matches f d) eqn:Hm.
  - apply update_doc_unmatched. by apply (matches_after_update f f u).
  - by rewrite !(update_doc_unmatched f u d).
Qed.

Lemma modifies_matches f u d :
  f_status f ≠ set_status u → modifies f u d = matches f d.
Proof.
  intros Hne. unfold modifies. destruct (matches f d) eqn:Hm; [|done].
  apply matches_spec in Hm as [Hst _]. simpl.
  apply negb_true_iff, Z.eqb_neq. congruence.
Qed.

Lemma sweep_filter_status v ar t : f_status (sweep_filter v ar t) ≠ set_status sweep_update.
Proof. apply active_neq_completed. Qed.

#[local] Hint Resolve active_neq_completed sweep_filter_status : sweep.

Lemma sweep_lookup v ar e w id :
  store (closeExpiredAuctions v ar e w) !! id =
    match fault e with
    | Some _ => store w !! id
    | None => update_doc (sweep_filter v ar (now e)) sweep_update <$> store w !! id
    end.
Proof. rewrite sweep_store. destruct (fault e); [done|]. apply lookup_fmap. Qed.

(** A document later than the instant [now - interval] is not matched,
    whatever the operator. *)
Lemma sweep_filter_later v ar t d :
  is_int64 (auctionInterval ar) →
  t - auctionInterval ar < Timestamp d * Second →
  matches (sweep_filter v ar t) d = false.
Proof.
  intros Hint Hlate. apply not_true_is_false. rewrite sweep_filter_matches.
  intros [_ Hcmp].
  assert (Timestamp d <= expirationThreshold ar t) as Hle by (destruct v; lia).
  apply Unix_ge_iff in Hle. unfold Add in Hle.
  pose proof (neg_le_opp _ Hint). lia.
Qed.

(** ** Frame of a sweep *)

Lemma create_store fault a w id :
  store (CreateAuction fault a w).2 !! id = store w !! id ∨
  (store w !! id = None ∧ id = auction_entity.Id a).
Proof.
  unfold CreateAuction, InsertOne. destruct fault as [err|]; simpl; [by left|].
  destruct (store w !! auction_entity.Id a) eqn:Hid; simpl; [by left|].
  destruct (decide (id = auction_entity.Id a)) as [->|Hne].
  - right. done.
  - left. by rewrite lookup_insert_ne.
Qed.

Lemma create_keeps fault a w id d :
  store w !! id = Some d → store (CreateAuction fault a w).2 !! id = Some d.
Proof.
  intros Hd. destruct (create_store fault a w id) as [->|[Hnone _]]; congruence.
Qed.

Lemma sweep_keeps_or_completes v ar e w id d :
  store w !! id = Some d →
  store (closeExpiredAuctions v ar e w) !! id = Some d ∨
  (fault e = None ∧ matches (sweep_filter v ar (now e)) d = true ∧
   store (closeExpiredAuctions v ar e w) !! id = Some (apply_set sweep_update d)).
Proof.
  intros Hd. rewrite sweep_lookup, Hd. destruct (fault e); [by left|]. simpl.
  destruct (matches (sweep_filter v ar (now e)) d) eqn:Hm.
  - right. by rewrite update_doc_matched.
  - left. by rewrite update_doc_unmatched.
Qed.

(** C2. A sweep keeps the set of entities and every field but [status];
    an entity later than [now - interval], and any entity the filter does
    not match, is left exactly as it was. *)
Theorem sweep_frame v ar e w :
  is_int64 (auctionInterval ar) →
  dom (store (closeExpiredAuctions v ar e w)) = dom (store w) ∧
  (∀ id d, store w !! id = Some d →
     ∃ d', store (closeExpiredAuctions v ar e w) !! id = Some d' ∧
       Id d' = Id d ∧ ProductName d' = ProductName d ∧
       Category d' = Category d ∧ Description d' = Description d ∧
       Condition d' = Condition d ∧ Timestamp d' = Timestamp d) ∧
  (∀ id d, store w !! id = Some d →
     now e - auctionInterval ar < Timestamp d * Second →
     store (closeExpiredAuctions v ar e w) !! id = Some d) ∧
  (∀ id d, store w !! id = Some d →
     matches (sweep_filter v ar (now e)) d = false →
     store (closeExpiredAuctions v ar e w) !! id = Some d).
Proof.
  intros Hint. repeat split.
  - rewrite sweep_store. destruct (fault e); [done|]. apply dom_fmap_L.
  - intros id d Hd.
    destruct (sweep_keeps_or_completes v ar e w id d Hd) as [Hsame|(_ & _ & Hset)].
    + exists d. done.
    + exists (apply_set sweep_update d). done.
  - intros id d Hd Hlate.
    destruct (sweep_keeps_or_completes v ar e w id d Hd) as [Hsame|(_ & Hm & _)]; [done|].
    rewrite (sweep_filter_later v ar (now e) d Hint Hlate) in Hm. discriminate.
  - intros id d Hd Hno.
    destruct (sweep_keeps_or_completes v ar e w id d Hd) as [Hsame|(_ & Hm & _)]; [done|].
    congruence.
Qed.

Lemma repo_2s_interval : auctionInterval repo_2s = 2 * Second.
Proof. reflexivity. Qed.

Lemma repo_2s_int64 : is_int64 (auctionInterval repo_2s).
Proof. by_evaluation. Qed.

(** The fresh auction of the scenario, one second old at second 101, is
    untouched by the sweep of either variant. *)
Lemma sweep_frame_witness :
  is_int64 (auctionInterval repo_2s) ∧
  store (closeExpiredAuctions Guarded repo_2s (tick_at 101 None) two_auctions)
    !! "test-auction-active"
  = Some (auction_at "test-auction-active" auction_entity.Active 100).
Proof.
  split; [exact repo_2s_int64|].
  apply (sweep_frame Guarded repo_2s (tick_at 101 None) two_auctions repo_2s_int64).
  - reflexivity.
  - vm_compute. reflexivity.
Defined.

(** ** One-directional status *)

Lemma step_status v ar op w id d :
  store w !! id = Some d →
  ∃ d', store (step v ar op w) !! id = Some d' ∧
    (d' = d ∨
     ∃ e, op = OpSweep e ∧ fault e = None ∧
       Status d = auction_entity.Active ∧ Status d' = auction_entity.Completed ∧
       cmp_holds (filter_op v) (Timestamp d) (expirationThreshold ar (now e)) = true).
Proof.
  intros Hd. destruct op as [fault a|e]; simpl.
  - exists d. split; [by apply create_keeps | by left].
  - destruct (sweep_keeps_or_completes v ar e w id d Hd) as [Hsame|(Hok & Hm & Hset)].
    + exists d. split; [done | by left].
    + exists (apply_set sweep_update d). split; [done|]. right. exists e.
      apply matches_spec in Hm as [Hst Hcmp]. done.
Qed.

Lemma run_snoc v ar ops op w :
  run v ar (ops ++ [op]) w = step v ar op (run v ar ops w).
Proof. unfold run. by rewrite foldl_app. Qed.

Lemma run_status v ar ops w id d :
  store w !! id = Some d →
  ∃ d', store (run v ar ops w) !! id = Some d' ∧
    (Status d' = Status d ∨
     (Status d = auction_entity.Active ∧ Status d' = auction_entity.Completed)).
Proof.
  intros Hd. induction ops as [|op ops IH] using rev_ind.
  - exists d. split; [done | by left].
  - destruct IH as (d1 & Hd1 & Hst1). rewrite run_snoc.
    destruct (step_status v ar op _ id d1 Hd1) as (d2 & Hd2 & Hst2).
    exists d2. split; [done|].
    destruct Hst2 as [->|(e & _ & _ & Hact & Hcomp & _)]; [done|].
    destruct Hst1 as [Heq|[Hact1 Hcomp1]].
    + right. split; congruence.
    + rewrite Hcomp1 in Hact. by destruct active_neq_completed.
Qed.

(** C3. Whatever the core does, creations and sweeps in any order, the
    status of an entity changes only from Active to Completed, only in a
    sweep the store applied, and only when the comparison against the
    threshold holds; a Completed entity stays Completed in every state
    reached. *)
Theorem status_one_directional v ar w id d :
  store w !! id = Some d →
  (∀ op, ∃ d', store (step v ar op w) !! id = Some d' ∧
     (d' = d ∨
      ∃ e, op = OpSweep e ∧ fault e = None ∧
        Status d = auction_entity.Active ∧ Status d' = auction_entity.Completed ∧
        cmp_holds (filter_op v) (Timestamp d) (expirationThreshold ar (now e)) = true)) ∧
  (∀ ops, ∃ d', store (run v ar ops w) !! id = Some d' ∧
     (Status d' = Status d ∨
      (Status d = auction_entity.Active ∧ Status d' = auction_entity.Completed))) ∧
  (Status d = auction_entity.Completed →
   ∀ ops, ∃ d', store (run v ar ops w) !! id = Some d' ∧
     Status d' = auction_entity.Completed).
Proof.
  intros Hd. split; [|split].
  - intros op. by apply step_status.
  - intros ops. by apply run_status.
  - intros Hcomp ops. destruct (run_status v ar ops w id d Hd) as (d' & Hd' & Hst).
    exists d'. split; [done|]. destruct Hst as [Heq|[Hact _]]; [congruence|].
    rewrite Hcomp in Hact. by destruct active_neq_completed.
Qed.

(** An attempt to create the expired auction again, as Active, between
    two sweeps: it stays Completed. *)
Lemma status_one_directional_witness :
  store (closeExpiredAuctions Plain repo_2s (tick_at 101 None) two_auctions)
    !! "test-auction-expired"
  = Some (auction_at "test-auction-expired" auction_entity.Completed 97) ∧
  ∃ d', store
      (run Plain repo_2s
         [OpCreate None
            {| auction_entity.Id := "test-auction-expired";
               auction_entity.ProductName := "Test Product";
               auction_entity.Category := "Test Category";
               auction_entity.Description := "again";
               auction_entity.Condition := 1;
               auction_entity.Status := auction_entity.Active;
               auction_entity.Timestamp := 101 * Second |};
          OpSweep (tick_at 102 None)]
         (closeExpiredAuctions Plain repo_2s (tick_at 101 None) two_auctions))
      !! "test-auction-expired" = Some d' ∧
    Status d' = auction_entity.Completed.
Proof.
  assert (store (closeExpiredAuctions Plain repo_2s (tick_at 101 None) two_auctions)
            !! "test-auction-expired"
          = Some (auction_at "test-auction-expired" auction_entity.Completed 97)) as Hd
    by (vm_compute; reflexivity).
  split; [exact Hd|].
  apply (status_one_directional Plain repo_2s _ _ _ Hd). reflexivity.
Defined.

(** ** Idempotence *)

Lemma sweep_logs_quiet v ar e w :
  fault e = None →
  count_docs (modifies (sweep_filter v ar (now e)) sweep_update) (store w) = 0 →
  logs (closeExpiredAuctions v ar e w) =
    logs w ++
    match v with
    | Plain => []
    | Guarded =>
        [LogInfo "Checking for expired auctions"
           [("threshold", expirationThreshold ar (now e)); ("now", Unix (now_logged e))];
         LogInfo "No expired auctions found" []]
    end.
Proof.
  intros Hok Hzero. destruct v.
  - change (closeExpiredAuctions Plain ar e w) with
      (let '(result, err, w1) :=
         UpdateMany (fault e) (sweep_filter Plain ar (now e)) sweep_update w in
       match err with
       | Some err => logger_Error "Error trying to close expired auctions" err w1
       | None =>
           if 0 <? ModifiedCount result then
             logger_Info
               ("Successfully closed " +:+ pretty (ModifiedCount result)
                  +:+ " expired auction(s)") [] w1
           else w1
       end).
    unfold UpdateMany, UpdateMany_answer, UpdateMany_request. rewrite Hok.
    cbn [ModifiedCount store]. rewrite Hzero.
    simpl. by rewrite app_nil_r.
  - change (closeExpiredAuctions Guarded ar e w) with
      (let w0 :=
         logger_Info "Checking for expired auctions"
           [("threshold", expirationThreshold ar (now e)); ("now", Unix (now_logged e))] w in
       let '(result, err, w1) :=
         UpdateMany (fault e) (sweep_filter Guarded ar (now e)) sweep_update w0 in
       match err with
       | Some err => logger_Error "Error trying to close expired auctions" err w1
       | None =>
           if 0 <? ModifiedCount result then
             logger_Info "Successfully closed expired auctions"
               [("count", ModifiedCount result)] w1
           else logger_Info "No expired auctions found" [] w1
       end).
    unfold UpdateMany, UpdateMany_answer, UpdateMany_request. rewrite Hok.
    cbn [ModifiedCount store logger_Info]. rewrite Hzero.
    simpl. by rewrite <- app_assoc.
Qed.

Lemma sweep_twice_store v ar e e' w :
  fault e = None → now e' = now e →
  store (closeExpiredAuctions v ar e' (closeExpiredAuctions v ar e w))
  = store (closeExpiredAuctions v ar e w).
Proof.
  intros Hok Hnow. rewrite (sweep_store v ar e'). destruct (fault e'); [done|].
  rewrite Hnow, sweep_store, Hok. rewrite <- map_fmap_compose.
  apply map_fmap_ext. intros id d _. simpl.
  apply update_doc_idem. auto with sweep.
Qed.

Lemma sweep_leaves_nothing v ar e w t :
  fault e = None → t = now e →
  count_docs (modifies (sweep_filter v ar t) sweep_update)
    (store (closeExpiredAuctions v ar e w)) = 0.
Proof.
  intros Hok ->. rewrite sweep_store, Hok, count_docs_fmap.
  apply count_docs_none. intros id d _.
  rewrite modifies_matches by auto with sweep.
  destruct (matches (sweep_filter v ar (now e)) d) eqn:Hm.
  - by apply (matches_after_update _ _ sweep_update).
  - by rewrite update_doc_unmatched.
Qed.

Lemma sweep_keeps_completed v ar e w id d :
  store w !! id = Some d → Status d = auction_entity.Completed →
  store (closeExpiredAuctions v ar e w) !! id = Some d.
Proof.
  intros Hd Hcomp.
  destruct (sweep_keeps_or_completes v ar e w id d Hd) as [Hsame|(_ & Hm & _)]; [done|].
  apply matches_spec in Hm as [Hst _]. simpl in Hst.
  rewrite Hcomp in Hst. by destruct active_neq_completed.
Qed.

(** C4. Two sweeps in immediate succession, at the same reading of the
    clock, leave the store as the first one left it; the second request
    reports no modified entity and the second sweep logs accordingly; an
    entity the first sweep transitioned is modified by no later sweep,
    whatever its threshold; and no sweep changes a Completed entity. *)
Theorem sweep_idempotent v ar e e' w :
  fault e = None → now e' = now e →
  store (closeExpiredAuctions v ar e' (closeExpiredAuctions v ar e w))
  = store (closeExpiredAuctions v ar e w) ∧
  ModifiedCount
    (UpdateMany (fault e') (sweep_filter v ar (now e')) sweep_update
       (closeExpiredAuctions v ar e w)).1.1 = 0 ∧
  (fault e' = None →
   logs (closeExpiredAuctions v ar e' (closeExpiredAuctions v ar e w)) =
     logs (closeExpiredAuctions v ar e w) ++
     match v with
     | Plain => []
     | Guarded =>
         [LogInfo "Checking for expired auctions"
            [("threshold", expirationThreshold ar (now e')); ("now", Unix (now_logged e'))];
          LogInfo "No expired auctions found" []]
     end) ∧
  (∀ t id d, store w !! id = Some d →
     matches (sweep_filter v ar (now e)) d = true →
     ∃ d1, store (closeExpiredAuctions v ar e w) !! id = Some d1 ∧
       Status d1 = auction_entity.Completed ∧
       modifies (sweep_filter v ar t) sweep_update d1 = false) ∧
  (∀ e2 w2 id d, store w2 !! id = Some d → Status d = auction_entity.Completed →
     store (closeExpiredAuctions v ar e2 w2) !! id = Some d).
Proof.
  intros Hok Hnow. split; [|split; [|split; [|split]]].
  - by apply sweep_twice_store.
  - unfold UpdateMany, UpdateMany_answer, UpdateMany_request.
    destruct (fault e'); [done|]. simpl. by apply sweep_leaves_nothing.
  - intros Hok'. apply sweep_logs_quiet; [done|]. by apply sweep_leaves_nothing.
  - intros t id d Hd Hm. exists (apply_set sweep_update d). split; [|split; [done|]].
    + rewrite sweep_lookup, Hok, Hd. simpl. by rewrite update_doc_matched.
    + rewrite modifies_matches by auto with sweep.
      unfold matches. simpl. done.
  - intros e2 w2 id d. apply sweep_keeps_completed.
Qed.

(** The scenario at second 102, swept twice by the guarded variant. *)
Lemma sweep_idempotent_witness :
  fault (tick_at 102 None) = None ∧
  store (closeExpiredAuctions Guarded repo_2s (tick_at 102 (Some "timeout"))
           (closeExpiredAuctions Guarded repo_2s (tick_at 102 None) two_auctions))
  = store (closeExpiredAuctions Guarded repo_2s (tick_at 102 None) two_auctions).
Proof.
  split; [reflexivity|].
  apply (sweep_idempotent Guarded repo_2s (tick_at 102 None) (tick_at 102 (Some "timeout"))
           two_auctions); reflexivity.
Defined.

(** ** Store errors *)

Lemma NewTicker_checkInterval ar : NewTicker (checkInterval ar) = Some (checkInterval ar).
Proof.
  unfold NewTicker, checkInterval.
  destruct (div (auctionInterval ar) 2 <? Second) eqn:Hlt; [done|].
  apply Z.ltb_ge in Hlt. rewrite (proj2 (Z.ltb_lt _ _)); [done|].
  unfold Second, Millisecond, Microsecond, Nanosecond in *. lia.
Qed.

Lemma closer_loop_store v ar cases w1 w2 :
  store w1 = store w2 →
  (closer_loop v ar cases w1).1 = (closer_loop v ar cases w2).1 ∧
  store (closer_loop v ar cases w1).2 = store (closer_loop v ar cases w2).2.
Proof.
  revert w1 w2. induction cases as [|[|e] rest IH]; intros w1 w2 Hst; simpl; [done..|].
  apply IH. rewrite !sweep_store. by rewrite Hst.
Qed.

Lemma sweep_logs_error v ar e w err :
  fault e = Some err →
  last (logs (closeExpiredAuctions v ar e w))
  = Some (LogError "Error trying to close expired auctions" err).
Proof.
  intros Herr.
  destruct v; unfold_sweep; rewrite Herr; simpl; apply last_snoc.
Qed.

(** The requests the loop has sent: one for every tick it has taken, in
    their order. *)
Lemma closer_loop_calls v ar cases w :
  calls (closer_loop v ar cases w).2
  = calls w
    ++ ((λ e, CallUpdateMany (sweep_filter v ar (now e)) sweep_update) <$> served cases).
Proof.
  revert w. induction cases as [|[|e] cases IH]; intros w; simpl.
  - by rewrite app_nil_r.
  - by rewrite app_nil_r.
  - rewrite IH, sweep_calls, <- app_assoc. done.
Qed.

Lemma startAuctionCloser_loop v ar cases w :
  status (startAuctionCloser v ar cases w) = (closer_loop v ar cases w).1 ∧
  final (startAuctionCloser v ar cases w) = (closer_loop v ar cases w).2.
Proof.
  unfold startAuctionCloser. rewrite NewTicker_checkInterval.
  by destruct (closer_loop v ar cases w).
Qed.

(** C5. When the store answers the batch update with an error, the sweep
    has sent its one request, logs the error as its last entry and returns
    with the store as it was; the loop keeps waiting for the next tick, and
    from then on it proceeds, on the store, exactly as if the failed sweep
    had not taken place.  The next tick the loop takes starts the next
    sweep: its request goes out after the failed one, and the store is as
    that sweep leaves it. *)
Theorem sweep_store_error v ar e w err :
  fault e = Some err →
  store (closeExpiredAuctions v ar e w) = store w ∧
  calls (closeExpiredAuctions v ar e w)
  = calls w ++ [CallUpdateMany (sweep_filter v ar (now e)) sweep_update] ∧
  last (logs (closeExpiredAuctions v ar e w))
  = Some (LogError "Error trying to close expired auctions" err) ∧
  status (startAuctionCloser v ar [TickerC e] w) = Waiting ∧
  (∀ cases,
     status (startAuctionCloser v ar (TickerC e :: cases) w)
     = status (startAuctionCloser v ar cases w) ∧
     store (final (startAuctionCloser v ar (TickerC e :: cases) w))
     = store (final (startAuctionCloser v ar cases w))) ∧
  (∀ e2,
     store (closeExpiredAuctions v ar e2 (closeExpiredAuctions v ar e w))
     = store (closeExpiredAuctions v ar e2 w) ∧
     calls (closeExpiredAuctions v ar e2 (closeExpiredAuctions v ar e w))
     = calls (closeExpiredAuctions v ar e w)
       ++ [CallUpdateMany (sweep_filter v ar (now e2)) sweep_update]) ∧
  (∀ e2,
     status (startAuctionCloser v ar [TickerC e; TickerC e2] w) = Waiting ∧
     final (startAuctionCloser v ar [TickerC e; TickerC e2] w)
     = closeExpiredAuctions v ar e2 (closeExpiredAuctions v ar e w) ∧
     calls (final (startAuctionCloser v ar [TickerC e; TickerC e2] w))
     = calls w ++ [CallUpdateMany (sweep_filter v ar (now e)) sweep_update;
                   CallUpdateMany (sweep_filter v ar (now e2)) sweep_update] ∧
     store (final (startAuctionCloser v ar [TickerC e; TickerC e2] w))
     = store (closeExpiredAuctions v ar e2 w)) ∧
  (∀ cases,
     calls (final (startAuctionCloser v ar (TickerC e :: cases) w))
     = calls w
       ++ CallUpdateMany (sweep_filter v ar (now e)) sweep_update
          :: ((λ e2, CallUpdateMany (sweep_filter v ar (now e2)) sweep_update)
                <$> served cases)).
Proof.
  intros Herr.
  assert (store (closeExpiredAuctions v ar e w) = store w) as Hst
    by (by rewrite sweep_store, Herr).
  split; [done|]. split; [apply sweep_calls|]. split; [by apply sweep_logs_error|].
  split; [|split; [|split; [|split]]].
  - unfold startAuctionCloser. by rewrite NewTicker_checkInterval.
  - intros cases. unfold startAuctionCloser. rewrite NewTicker_checkInterval. simpl.
    destruct (closer_loop_store v ar cases _ _ Hst) as [H1 H2].
    destruct (closer_loop v ar cases (closeExpiredAuctions v ar e w)) as [s1 w1].
    destruct (closer_loop v ar cases w) as [s2 w2]. done.
  - intros e2. split; [|apply sweep_calls].
    rewrite !(sweep_store v ar e2). by rewrite Hst.
  - intros e2.
    destruct (startAuctionCloser_loop v ar [TickerC e; TickerC e2] w) as [-> ->]. simpl.
    split; [done|]. split; [done|]. split.
    + rewrite !sweep_calls, <- app_assoc. done.
    + rewrite !(sweep_store v ar e2). by rewrite Hst.
  - intros cases.
    destruct (startAuctionCloser_loop v ar (TickerC e :: cases) w) as [_ ->].
    apply (closer_loop_calls v ar (TickerC e :: cases) w).
Qed.

(** A sweep at second 101 that the store answers with an error; at the
    tick of second 102 the loop sends the next request, and the expired
    auction is closed. *)
Lemma sweep_store_error_witness :
  fault (tick_at 101 (Some "connection reset")) = Some "connection reset" ∧
  store (closeExpiredAuctions Plain repo_2s (tick_at 101 (Some "connection reset"))
           two_auctions) = store two_auctions ∧
  calls
    (final
       (startAuctionCloser Plain repo_2s
          [TickerC (tick_at 101 (Some "connection reset")); TickerC (tick_at 102 None)]
          two_auctions))
  = [CallUpdateMany (sweep_filter Plain repo_2s (101 * Second)) sweep_update;
     CallUpdateMany (sweep_filter Plain repo_2s (102 * Second)) sweep_update] ∧
  Status <$>
    store
      (final
         (startAuctionCloser Plain repo_2s
            [TickerC (tick_at 101 (Some "connection reset")); TickerC (tick_at 102 None)]
            two_auctions)) !! "test-auction-expired"
  = Some auction_entity.Completed.
Proof.
  split; [reflexivity|].
  destruct (sweep_store_error Plain repo_2s (tick_at 101 (Some "connection reset"))
              two_auctions "connection reset" eq_refl)
    as (Hstore & _ & _ & _ & _ & _ & Hnext & _).
  split; [exact Hstore|].
  destruct (Hnext (tick_at 102 None)) as (_ & _ & Hcalls & Hst).
  split; [exact Hcalls|]. rewrite Hst. vm_compute. reflexivity.
Defined.

(** ** The parser of durations *)

Section ParseDurationFacts.

Lemma leadingInt_length x s v rest :
  leadingInt x s = Some (v, rest) → (String.length rest <= String.length s)%nat.
Proof.
  revert x. induction s as [|c s IH]; intros x; simpl.
  - intros [= _ <-]. done.
  - destruct (is_digit c).
    + destruct (2 ^ 63 / 10 <? x); [done|].
      destruct (2 ^ 63 <? x * 10 + byte_of c - 48); [done|].
      intros H. apply IH in H. lia.
    + intros [= _ <-]. done.
Qed.

Lemma leadingFraction_length x scale ov s :
  (String.length (leadingFraction x scale ov s).2 <= String.length s)%nat.
Proof.
  revert x scale ov. induction s as [|c s IH]; intros x scale ov; simpl; [done|].
  destruct (is_digit c); [|done].
  destruct ov; [specialize (IH x scale true); lia|].
  destruct ((2 ^ 63 - 1) / 10 <? x); [specialize (IH x scale true); lia|].
  destruct (2 ^ 63 <? x * 10 + byte_of c - 48).
  - specialize (IH x scale true); lia.
  - match goal with |- context [leadingFraction ?a ?b ?c s] => specialize (IH a b c) end.
    lia.
Qed.

Lemma span_unit_length s :
  (String.length (span_unit s).1 + String.length (span_unit s).2 = String.length s)%nat.
Proof.
  induction s as [|c s IH]; simpl; [done|].
  destruct (is_dot c || is_digit c); simpl; [done|].
  destruct (span_unit s) as [u rest]. simpl in *. lia.
Qed.

Lemma string_eqb_empty u : String.eqb u "" = false → (0 < String.length u)%nat.
Proof. destruct u; simpl; [discriminate | lia]. Qed.

(** Every round of the loop consumes at least one byte. *)
Lemma parse_group_length orig s v rest :
  parse_group orig s = inl (v, rest) → (String.length rest < String.length s)%nat.
Proof.
  unfold parse_group. destruct s as [|c0 s0]; [done|].
  destruct (negb (is_dot c0 || is_digit c0)); [done|].
  destruct (leadingInt 0 (String c0 s0)) as [[v0 s1]|] eqn:Hint; [|done].
  apply leadingInt_length in Hint.
  set (frac := match s1 with
               | String c s1' =>
                   if is_dot c then
                     let '(f, scale, s2) := leadingFraction 0 (f64_of_Z 1) false s1' in
                     (f, scale, s2, negb (String.length s1' =? String.length s2)%nat)
                   else (0, f64_of_Z 1, s1, false)
               | EmptyString => (0, f64_of_Z 1, s1, false)
               end).
  assert (String.length frac.1.2 <= String.length s1)%nat as Hfrac.
  { subst frac. destruct s1 as [|c s1']; [done|].
    destruct (is_dot c); [|done].
    pose proof (leadingFraction_length 0 (f64_of_Z 1) false s1') as Hlen.
    destruct (leadingFraction 0 (f64_of_Z 1) false s1') as [[f scale] s2].
    simpl in *. lia. }
  destruct frac as [[[f scale] s2] post]. simpl in Hfrac.
  destruct (negb (negb (String.length (String c0 s0) =? String.length s1)%nat) && negb post);
    [done|].
  pose proof (span_unit_length s2) as Hspan.
  destruct (span_unit s2) as [u s3]. simpl in Hspan.
  destruct (String.eqb u "") eqn:Hu; [done|]. apply string_eqb_empty in Hu.
  destruct (unitMap u) as [unit|]; [|done].
  destruct (2 ^ 63 / unit <? v0); [done|].
  match goal with |- context [if ?b then inr _ else _] => destruct b end; [done|].
  intros [= _ <-]. lia.
Qed.

(** With more fuel than the length of the string the loop gives what it
    gives with exactly the length: the fuel is never what stops it. *)
Lemma parse_groups_fuel fuel orig d s :
  (String.length s <= fuel)%nat →
  parse_groups fuel orig d s = parse_groups (String.length s) orig d s.
Proof.
  remember (String.length s) as n eqn:Hn. revert fuel d s Hn.
  induction n as [n IH] using lt_wf_ind. intros fuel d s Hn Hfuel.
  destruct s as [|c s']; [by destruct fuel, n|].
  destruct fuel as [|fuel]; [simpl in Hn; lia|].
  destruct n as [|n]; [simpl in Hn; lia|].
  cbn [parse_groups].
  destruct (parse_group orig (String c s')) as [[v rest]|err] eqn:Hg; [|done].
  apply parse_group_length in Hg.
  destruct (2 ^ 63 <? (d + v) mod 2 ^ 64); [done|].
  rewrite (IH (String.length rest)) by (rewrite ?Hn in *; simpl in *; lia).
  symmetry. apply (IH (String.length rest)); rewrite ?Hn in *; simpl in *; lia.
Qed.

Lemma parse_groups_range fuel orig d s r :
  0 <= d <= 2 ^ 63 → parse_groups fuel orig d s = inl r → 0 <= r <= 2 ^ 63.
Proof.
  revert d s. induction fuel as [|fuel IH]; intros d s Hd.
  - destruct s; simpl; [intros [= <-]; done | done].
  - destruct s as [|c s']; [simpl; intros [= <-]; done|].
    cbn [parse_groups].
    destruct (parse_group orig (String c s')) as [[v rest]|err]; [|done].
    destruct (2 ^ 63 <? (d + v) mod 2 ^ 64) eqn:Hov; [done|].
    apply Z.ltb_ge in Hov. apply IH. split; [|done].
    apply Z.mod_pos_bound. lia.
Qed.

(** A parsed duration is an [int64]. *)
Lemma ParseDuration_int64 s d : ParseDuration s = inl d → is_int64 d.
Proof.
  unfold ParseDuration.
  set (signed := match s with
                 | String c s' =>
                     if (byte_of c =? 45) || (byte_of c =? 43) then (byte_of c =? 45, s')
                     else (false, s)
                 | EmptyString => (false, s)
                 end).
  destruct signed as [neg_sign s0].
  destruct (String.eqb s0 "0"); [intros [= <-]; vm_compute; split; discriminate|].
  destruct (String.eqb s0 ""); [done|].
  destruct (parse_groups (String.length s0) s 0 s0) as [r|err] eqn:Hr; [|done].
  apply parse_groups_range in Hr; [|lia].
  unfold is_int64, min_int64, max_int64.
  destruct neg_sign.
  - intros [= <-]. unfold neg, wrap64.
    destruct (Z.eq_dec r (2 ^ 63)) as [->|Hne]; [vm_compute; split; discriminate|].
    rewrite (Z.mod_small (r + 2 ^ 63)) by lia.
    replace (r + 2 ^ 63 - 2 ^ 63) with r by lia.
    destruct (Z.eq_dec r 0) as [->|Hne0]; [vm_compute; split; discriminate|].
    rewrite Z.mod_small; lia.
  - destruct (2 ^ 63 - 1 <? r) eqn:Hov; [done|]. apply Z.ltb_ge in Hov.
    intros [= <-]. lia.
Qed.

(** The parser on the sample strings. *)
Example ParseDuration_samples :
  forallb (λ p, match ParseDuration p.1 with inl d => d =? p.2 | inr _ => false end)
    durations = true ∧
  forallb (λ s, match ParseDuration s with inl _ => false | inr _ => true end)
    not_durations = true.
Proof. split; vm_compute; reflexivity. Qed.

Lemma ParseDuration_empty : ParseDuration "" = inr (ErrInvalidDuration "").
Proof. reflexivity. Qed.

End ParseDurationFacts.

(** ** The interval resolver *)

Lemma Getenv_unset env key : env !! key = None → Getenv env key = "".
Proof. unfold Getenv. by intros ->. Qed.

Lemma getAuctionInterval_int64 env : is_int64 (getAuctionInterval env).
Proof.
  unfold getAuctionInterval.
  destruct (ParseDuration (Getenv env "AUCTION_INTERVAL")) as [d|err] eqn:Hp.
  - by apply ParseDuration_int64 in Hp.
  - vm_compute. split; discriminate.
Qed.

(** C6. The resolver reads the one variable, and nothing else of the
    environment; when it is not set, or its value does not parse as a
    duration, the result is five minutes, that is 300 seconds; in every
    case the result is a duration: the default or the parsed value, never
    an error. *)
Theorem interval_resolver_fail_soft env :
  (env !! "AUCTION_INTERVAL" = None → getAuctionInterval env = 300 * Second) ∧
  (∀ err, ParseDuration (Getenv env "AUCTION_INTERVAL") = inr err →
     getAuctionInterval env = 300 * Second) ∧
  (getAuctionInterval env = 300 * Second ∨
   ParseDuration (Getenv env "AUCTION_INTERVAL") = inl (getAuctionInterval env)) ∧
  is_int64 (getAuctionInterval env) ∧
  (∀ env', env' !! "AUCTION_INTERVAL" = env !! "AUCTION_INTERVAL" →
     getAuctionInterval env' = getAuctionInterval env) ∧
  auctionInterval (NewAuctionRepository env) = getAuctionInterval env.
Proof.
  split; [|split; [|split; [|split; [|split]]]].
  - intros Hunset. unfold getAuctionInterval.
    by rewrite Getenv_unset, ParseDuration_empty.
  - intros err Herr. unfold getAuctionInterval. by rewrite Herr.
  - unfold getAuctionInterval.
    destruct (ParseDuration (Getenv env "AUCTION_INTERVAL")); [by right | by left].
  - apply getAuctionInterval_int64.
  - intros env' Hsame. unfold getAuctionInterval, Getenv. by rewrite Hsame.
  - done.
Qed.

(** No variable at all, and a bare number with no unit. *)
Lemma interval_resolver_fail_soft_witness :
  (∅ : gmap string string) !! "AUCTION_INTERVAL" = None ∧
  getAuctionInterval ∅ = 300 * Second ∧
  ParseDuration (Getenv {[ "AUCTION_INTERVAL" := "300" ]} "AUCTION_INTERVAL")
  = inr (ErrMissingUnit "300") ∧
  getAuctionInterval {[ "AUCTION_INTERVAL" := "300" ]} = 300 * Second.
Proof.
  split; [reflexivity|]. split.
  - apply (interval_resolver_fail_soft ∅). reflexivity.
  - split; [reflexivity|].
    apply (interval_resolver_fail_soft {[ "AUCTION_INTERVAL" := "300" ]})
      with (err := ErrMissingUnit "300").
    reflexivity.
Defined.

(** ** Cadence of the ticker *)

(** C7. The period handed to the ticker is the larger of half the
    interval and one second: half the interval, in whole nanoseconds,
    when the interval is at least two seconds, one second otherwise; it
    is positive, so creating the ticker never panics. *)
Theorem tick_cadence v ar cases w :
  checkInterval ar = Z.max (div (auctionInterval ar) 2) Second ∧
  ticker (startAuctionCloser v ar cases w) = Some (checkInterval ar) ∧
  (2 * Second <= auctionInterval ar →
   checkInterval ar = auctionInterval ar / 2 ∧
   2 * checkInterval ar <= auctionInterval ar <= 2 * checkInterval ar + 1) ∧
  (auctionInterval ar < 2 * Second → checkInterval ar = Second).
Proof.
  split; [|split; [|split]].
  - unfold checkInterval. destruct (div (auctionInterval ar) 2 <? Second) eqn:Hlt.
    + apply Z.ltb_lt in Hlt. lia.
    + apply Z.ltb_ge in Hlt. lia.
  - unfold startAuctionCloser. rewrite NewTicker_checkInterval.
    by destruct (closer_loop v ar cases w).
  - intros Hbig. unfold checkInterval, div in *.
    rewrite Z.quot_div_nonneg by (unfold Second, Millisecond, Microsecond, Nanosecond in *; lia).
    unfold Second, Millisecond, Microsecond, Nanosecond in *.
    destruct (auctionInterval ar / 2 <? 1000 * (1000 * (1000 * 1))) eqn:Hlt.
    + apply Z.ltb_lt in Hlt. Z.to_euclidean_division_equations. lia.
    + Z.to_euclidean_division_equations. lia.
  - intros Hsmall. unfold checkInterval, div in *.
    destruct (auctionInterval ar `quot` 2 <? Second) eqn:Hlt; [done|].
    apply Z.ltb_ge in Hlt. exfalso.
    unfold Second, Millisecond, Microsecond, Nanosecond in *.
    Z.to_euclidean_division_equations. lia.
Qed.

(** Twenty seconds gives ten; two seconds and half a second give one. *)
Lemma tick_cadence_witness :
  checkInterval (NewAuctionRepository {[ "AUCTION_INTERVAL" := "20s" ]}) = 10 * Second ∧
  checkInterval repo_2s = Second ∧
  checkInterval (NewAuctionRepository {[ "AUCTION_INTERVAL" := "500ms" ]}) = Second.
Proof.
  split; [|split].
  - pose proof (tick_cadence Plain (NewAuctionRepository {[ "AUCTION_INTERVAL" := "20s" ]})
                  [] two_auctions) as (_ & _ & Hhalf & _).
    destruct Hhalf as [-> _]; [vm_compute; discriminate | reflexivity].
  - pose proof (tick_cadence Plain repo_2s [] two_auctions) as (_ & _ & Hhalf & _).
    destruct Hhalf as [-> _]; [vm_compute; discriminate | reflexivity].
  - pose proof (tick_cadence Plain (NewAuctionRepository {[ "AUCTION_INTERVAL" := "500ms" ]})
                  [] two_auctions) as (_ & _ & _ & Hfloor).
    apply Hfloor. vm_compute. reflexivity.
Defined.

(** ** What a sweep transitions *)

(** C1, as amended.  For an interval above the least [int64], a sweep
    sends exactly one batch update that sets [status] to Completed.  In
    [create_auction.go] its filter matches exactly the Active entities
    with [createdAt <= now - interval], the boundary included.  In the
    variant with the mutex the operator is [$lt] against the threshold in
    whole seconds: it matches exactly the Active entities with
    [createdAt + 1s <= now - interval].  When the store applies the
    update, every entity so matched is Completed afterwards. *)
Theorem sweep_transitions_expired v ar e w :
  min_int64 < auctionInterval ar → auctionInterval ar <= max_int64 →
  (∃ f u,
     calls (closeExpiredAuctions v ar e w) = calls w ++ [CallUpdateMany f u] ∧
     set_status u = auction_entity.Completed ∧
     ∀ d, matches f d = true ↔
       Status d = auction_entity.Active ∧
       match v with
       | Plain => Timestamp d * Second <= now e - auctionInterval ar
       | Guarded => (Timestamp d + 1) * Second <= now e - auctionInterval ar
       end) ∧
  (fault e = None →
   ∀ id d, store w !! id = Some d →
     Status d = auction_entity.Active →
     match v with
     | Plain => Timestamp d * Second <= now e - auctionInterval ar
     | Guarded => (Timestamp d + 1) * Second <= now e - auctionInterval ar
     end →
     ∃ d', store (closeExpiredAuctions v ar e w) !! id = Some d' ∧
       Status d' = auction_entity.Completed).
Proof.
  intros Hlo Hhi. split.
  - exists (sweep_filter v ar (now e)), sweep_update.
    split; [apply sweep_calls|]. split; [done|].
    intros d. by apply sweep_filter_instant.
  - intros Hok id d Hd Hact Hexp.
    exists (apply_set sweep_update d). split; [|done].
    rewrite sweep_lookup, Hok, Hd. simpl. rewrite update_doc_matched; [done|].
    by apply sweep_filter_instant.
Qed.

(** The scenario: interval two seconds, the sweep at second 101 closes
    the auction created at second 97. *)
Lemma sweep_transitions_expired_witness :
  (min_int64 < auctionInterval repo_2s ∧ auctionInterval repo_2s <= max_int64) ∧
  ∃ d', store (closeExpiredAuctions Guarded repo_2s (tick_at 101 None) two_auctions)
          !! "test-auction-expired" = Some d' ∧
        Status d' = auction_entity.Completed.
Proof.
  assert (min_int64 < auctionInterval repo_2s) as Hlo by (vm_compute; reflexivity).
  assert (auctionInterval repo_2s <= max_int64) as Hhi by (vm_compute; discriminate).
  split; [done|].
  destruct (sweep_transitions_expired Guarded repo_2s (tick_at 101 None) two_auctions Hlo Hhi)
    as [_ Hdone].
  apply (Hdone eq_refl "test-auction-expired"
           (auction_at "test-auction-expired" auction_entity.Active 97)).
  - reflexivity.
  - reflexivity.
  - vm_compute. discriminate.
Defined.

Lemma repo_min_interval : auctionInterval repo_min = min_int64.
Proof. vm_compute. reflexivity. Qed.

(** The claim as first stated fails in two places.  At second 102 the
    auction created at second 100 is exactly two seconds old, and the
    variant with the mutex leaves it Active.  With the least duration as
    interval, [-interval] wraps: the plain variant leaves an auction
    Active although [createdAt <= now - interval]. *)
Lemma sweep_transitions_expired_counterexample :
  (fault (tick_at 102 None) = None ∧
   store two_auctions !! "test-auction-active"
     = Some (auction_at "test-auction-active" auction_entity.Active 100) ∧
   100 * Second <= now (tick_at 102 None) - auctionInterval repo_2s ∧
   store (closeExpiredAuctions Guarded repo_2s (tick_at 102 None) two_auctions)
     !! "test-auction-active"
     = Some (auction_at "test-auction-active" auction_entity.Active 100)) ∧
  (store two_auctions !! "test-auction-expired"
     = Some (auction_at "test-auction-expired" auction_entity.Active 97) ∧
   97 * Second <= now (tick_at 101 None) - auctionInterval repo_min ∧
   store (closeExpiredAuctions Plain repo_min (tick_at 101 None) two_auctions)
     !! "test-auction-expired"
     = Some (auction_at "test-auction-expired" auction_entity.Active 97)).
Proof.
  split; [split; [|split; [|split]] | split; [|split]];
    try reflexivity; vm_compute; discriminate.
Qed.

(** ** The stored second and the instant of creation

    [CreateAuction] stores the creation instant cut to whole seconds.
    Measured from the instant itself, the [$lte] of [create_auction.go]
    can close an auction up to a second before its interval has passed;
    the [$lt] of the variant with the mutex never does. *)

Lemma create_lookup a w :
  store w !! auction_entity.Id a = None →
  ∃ d, store (CreateAuction None a w).2 !! auction_entity.Id a = Some d ∧
       Status d = auction_entity.Status a ∧
       Timestamp d = Unix (auction_entity.Timestamp a).
Proof.
  intros Hfresh. unfold CreateAuction, InsertOne. simpl. rewrite Hfresh. simpl.
  eexists. rewrite lookup_insert_eq. done.
Qed.

Lemma guarded_sweep_not_early ar t a d :
  min_int64 < auctionInterval ar → auctionInterval ar <= max_int64 →
  Timestamp d = Unix (auction_entity.Timestamp a) →
  matches (sweep_filter Guarded ar t) d = true →
  auction_entity.Timestamp a + auctionInterval ar < t.
Proof.
  intros Hlo Hhi Hts Hm.
  apply (sweep_filter_instant Guarded ar t d Hlo Hhi) in Hm as [_ Hle].
  rewrite Hts in Hle. unfold Unix in Hle. change Second with 1000000000 in Hle.
  Z.to_euclidean_division_equations. lia.
Qed.

(** Created at 100.21 s with interval 2 s, swept at 102.2 s: closed by the
    plain variant, kept by the guarded one. *)
Example plain_sweep_early :
  let w := (CreateAuction None (auction_created "a" 100210000000) empty_world).2 in
  let e := {| now := 102200000000; now_logged := 102200000000; fault := None |} in
  Status <$> store (closeExpiredAuctions Plain repo_2s e w) !! "a"
  = Some auction_entity.Completed ∧
  Status <$> store (closeExpiredAuctions Guarded repo_2s e w) !! "a"
  = Some auction_entity.Active.
Proof. split; vm_compute; reflexivity. Qed.

(** ** Intervals that are not positive *)

(** C10, as amended.  The resolver hands back whatever duration the
    parser accepts, unchanged: positive, zero or negative, and it is the
    interval of the repository either constructor builds.  With an
    interval that is zero or negative, the least [int64] apart, the
    threshold instant [now - interval] is not before [now], and the
    sweep of [create_auction.go] matches every Active entity whose
    [createdAt] is not after [now], the one created at [now] included;
    the variant with the mutex does so once the interval is at most
    minus one second. *)
Theorem nonpositive_interval_accepted env name d t :
  ParseDuration (Getenv env "AUCTION_INTERVAL") = inl d →
  let ar := NewAuctionRepositoryWithCollection env name in
  getAuctionInterval env = d ∧
  auctionInterval ar = d ∧
  auctionInterval (NewAuctionRepository env) = d ∧
  (min_int64 < d → d <= 0 →
   t <= Add t (neg (auctionInterval ar)) ∧
   Unix t <= expirationThreshold ar t ∧
   (∀ doc, Status doc = auction_entity.Active → Timestamp doc <= Unix t →
      matches (sweep_filter Plain ar t) doc = true) ∧
   (d <= - Second →
    ∀ doc, Status doc = auction_entity.Active → Timestamp doc <= Unix t →
      matches (sweep_filter Guarded ar t) doc = true)).
Proof.
  intros Hparse ar.
  assert (getAuctionInterval env = d) as Hget.
  { unfold getAuctionInterval. by rewrite Hparse. }
  assert (auctionInterval ar = d) as Hd by (subst ar; exact Hget).
  split; [exact Hget|]. split; [exact Hd|]. split; [exact Hget|].
  intros Hlo Hhi.
  assert (neg d = - d) as Hneg.
  { apply neg_opp; [done|]. unfold max_int64. lia. }
  assert (Unix t <= expirationThreshold ar t) as Hthr.
  { unfold expirationThreshold, Add. rewrite Hd, Hneg.
    apply Unix_ge_iff. unfold Unix. change Second with 1000000000.
    Z.to_euclidean_division_equations. lia. }
  split; [unfold Add; rewrite Hd, Hneg; lia|]. split; [done|]. split.
  - intros doc Hact Hts. apply sweep_filter_matches. split; [done|]. lia.
  - intros Hneg1 doc Hact Hts. apply sweep_filter_matches. split; [done|].
    unfold expirationThreshold, Add. rewrite Hd, Hneg.
    apply Unix_gt_iff. apply Unix_ge_iff in Hts.
    unfold Second, Millisecond, Microsecond, Nanosecond in *. lia.
Qed.

(** ["-5s"] is accepted, and the auction created at second 100 is matched
    by a sweep at second 100; ["20s"] is handed back as twenty seconds. *)
Lemma nonpositive_interval_accepted_witness :
  ParseDuration (Getenv {[ "AUCTION_INTERVAL" := "-5s" ]} "AUCTION_INTERVAL")
  = inl (- 5 * Second) ∧
  auctionInterval repo_minus_5s = - 5 * Second ∧
  matches (sweep_filter Plain repo_minus_5s (100 * Second))
    (auction_at "test-auction-active" auction_entity.Active 100) = true ∧
  ParseDuration (Getenv {[ "AUCTION_INTERVAL" := "20s" ]} "AUCTION_INTERVAL")
  = inl (20 * Second) ∧
  getAuctionInterval {[ "AUCTION_INTERVAL" := "20s" ]} = 20 * Second.
Proof.
  assert (ParseDuration (Getenv {[ "AUCTION_INTERVAL" := "-5s" ]} "AUCTION_INTERVAL")
          = inl (- 5 * Second)) as Hparse by reflexivity.
  split; [exact Hparse|].
  assert (min_int64 < - 5 * Second) as Hlo by (vm_compute; reflexivity).
  assert (- 5 * Second <= 0) as Hhi by (vm_compute; discriminate).
  destruct (nonpositive_interval_accepted {[ "AUCTION_INTERVAL" := "-5s" ]} "auctions"
              (- 5 * Second) (100 * Second) Hparse) as (_ & Hd & _ & Hsweep).
  split; [exact Hd|].
  destruct (Hsweep Hlo Hhi) as (_ & _ & Hall & _).
  split; [apply Hall; [reflexivity | vm_compute; discriminate]|].
  assert (ParseDuration (Getenv {[ "AUCTION_INTERVAL" := "20s" ]} "AUCTION_INTERVAL")
          = inl (20 * Second)) as Hparse20 by reflexivity.
  split; [exact Hparse20|].
  exact (proj1 (nonpositive_interval_accepted {[ "AUCTION_INTERVAL" := "20s" ]} "auctions"
                  (20 * Second) 0 Hparse20)).
Defined.

(** The claim as first stated fails in three places.  In
    [create_auction.go], with the least duration as interval the
    threshold falls before [now] and the auction created at [now] is not
    matched; with interval zero an Active auction whose [createdAt] lies
    six seconds ahead is not matched.  In the variant with the mutex, with
    interval zero the auction created at [now] is not matched. *)
Lemma nonpositive_interval_accepted_counterexample :
  (getAuctionInterval {[ "AUCTION_INTERVAL" := "-9223372036854775808ns" ]} = min_int64 ∧
   Add (100 * Second) (neg (auctionInterval repo_min)) < 100 * Second ∧
   matches (sweep_filter Plain repo_min (100 * Second))
     (auction_at "test-auction-active" auction_entity.Active 100) = false) ∧
  (getAuctionInterval {[ "AUCTION_INTERVAL" := "0" ]} = 0 ∧
   matches (sweep_filter Plain repo_zero (100 * Second))
     (auction_at "test-auction-active" auction_entity.Active 106) = false) ∧
  matches (sweep_filter Guarded repo_zero (100 * Second))
    (auction_at "test-auction-active" auction_entity.Active 100) = false.
Proof.
  split; [split; [|split] | split; [split|]]; vm_compute; reflexivity.
Qed.

(** ** Callers side by side: exclusion and the ledger of counts *)

Section ThreadFacts.

Import Threads.

(** *** Bookkeeping over the list of callers *)

Lemma inside_insert l i p q :
  l !! i = Some p →
  (inside (<[i:=q]> l) + (if in_body p then 1 else 0)
   = inside l + (if in_body q then 1 else 0))%nat.
Proof.
  revert i. induction l as [|x l IH]; intros [|i] Hi; simpl in *; try done.
  - injection Hi as ->. destruct (in_body p), (in_body q); lia.
  - specialize (IH i Hi). destruct (in_body x); lia.
Qed.

Lemma inside_two l i j p q :
  l !! i = Some p → l !! j = Some q → i ≠ j →
  in_body p = true → in_body q = true → (2 <= inside l)%nat.
Proof.
  intros Hi Hj Hne Hp Hq.
  pose proof (inside_insert l i p AtEntry Hi) as H1. rewrite Hp in H1. simpl in H1.
  assert (<[i:=AtEntry]> l !! j = Some q) as Hj' by (by rewrite list_lookup_insert_ne).
  pose proof (inside_insert _ j q AtEntry Hj') as H2. rewrite Hq in H2. simpl in H2.
  lia.
Qed.

Lemma inside_replicate n : inside (replicate n AtEntry) = 0%nat.
Proof. induction n as [|n IH]; simpl; done. Qed.

Lemma later_comm o a b : later (later o a) b = later (later o b) a.
Proof. destruct o; simpl; f_equal; lia. Qed.

Lemma latest_insert_same l i p q :
  l !! i = Some p → answered q = answered p → latest (<[i:=q]> l) = latest l.
Proof.
  revert i. induction l as [|x l IH]; intros [|i] Hi Heq; simpl in *; try done.
  - injection Hi as ->. by rewrite Heq.
  - by rewrite (IH i).
Qed.

Lemma latest_insert_answer l i p q t :
  l !! i = Some p → answered p = None → answered q = Some t →
  latest (<[i:=q]> l) = later (latest l) t.
Proof.
  revert i. induction l as [|x l IH]; intros [|i] Hi Hp Hq; simpl in *; try done.
  - injection Hi as ->. by rewrite Hp, Hq.
  - rewrite (IH i) by done. destruct (answered x); [apply later_comm | done].
Qed.

Lemma total_modified_insert l i p q :
  l !! i = Some p →
  total_modified (<[i:=q]> l) = total_modified l - modified p + modified q.
Proof.
  revert i. induction l as [|x l IH]; intros [|i] Hi; simpl in *; try done.
  - injection Hi as ->. lia.
  - rewrite (IH i) by done. lia.
Qed.

Lemma latest_replicate n : latest (replicate n AtEntry) = None.
Proof. induction n as [|n IH]; simpl; done. Qed.

Lemma total_modified_replicate n : total_modified (replicate n AtEntry) = 0.
Proof. induction n as [|n IH]; simpl; [done | by rewrite IH]. Qed.

(** *** Sweeps at growing thresholds *)

Lemma expirationThreshold_mono ar t1 t2 :
  t1 <= t2 → expirationThreshold ar t1 <= expirationThreshold ar t2.
Proof.
  intros Hle. unfold expirationThreshold, Add, Unix.
  apply Z.div_le_mono; [reflexivity | lia].
Qed.

Lemma matches_mono v ar t1 t2 d :
  t1 <= t2 →
  matches (sweep_filter v ar t1) d = true → matches (sweep_filter v ar t2) d = true.
Proof.
  intros Hle. rewrite !sweep_filter_matches. intros [Hst Hcmp]. split; [done|].
  pose proof (expirationThreshold_mono ar t1 t2 Hle). destruct v; lia.
Qed.

Lemma matches_max v ar m t d :
  matches (sweep_filter v ar (Z.max m t)) d
  = matches (sweep_filter v ar m) d || matches (sweep_filter v ar t) d.
Proof.
  destruct (Z.max_spec m t) as [[Hlt ->]|[Hle ->]].
  - destruct (matches (sweep_filter v ar m) d) eqn:Hm; [|done].
    simpl. apply (matches_mono v ar m t); [lia | done].
  - destruct (matches (sweep_filter v ar t) d) eqn:Ht; [|by rewrite orb_false_r].
    rewrite orb_true_r. apply (matches_mono v ar t m); [lia | done].
Qed.

Lemma update_doc_max v ar m t d :
  update_doc (sweep_filter v ar t) sweep_update
    (update_doc (sweep_filter v ar m) sweep_update d)
  = update_doc (sweep_filter v ar (Z.max m t)) sweep_update d.
Proof.
  destruct (matches (sweep_filter v ar m) d) eqn:Hm.
  - rewrite (update_doc_unmatched (sweep_filter v ar t))
      by (apply (matches_after_update _ _ sweep_update); [done | apply sweep_filter_status | done]).
    rewrite (update_doc_matched (sweep_filter v ar m)) by done.
    rewrite update_doc_matched; [done|]. by rewrite matches_max, Hm.
  - rewrite (update_doc_unmatched (sweep_filter v ar m)) by done.
    unfold update_doc. by rewrite matches_max, Hm.
Qed.

Lemma swept_later v ar o t (c : Collection) :
  update_doc (sweep_filter v ar t) sweep_update <$> swept v ar o c
  = swept v ar (later o t) c.
Proof.
  destruct o as [m|]; simpl; [|done].
  rewrite <- map_fmap_compose. apply map_fmap_ext. intros id d _. simpl.
  apply update_doc_max.
Qed.

Lemma swept_count_later v ar o t (c : Collection) :
  swept_count v ar o c
  + count_docs (modifies (sweep_filter v ar t) sweep_update) (swept v ar o c)
  = swept_count v ar (later o t) c.
Proof.
  destruct o as [m|]; simpl; [|lia].
  rewrite count_docs_fmap.
  rewrite (count_docs_ext (modifies (sweep_filter v ar (Z.max m t)) sweep_update)
             (λ d, modifies (sweep_filter v ar m) sweep_update d
                   || modifies (sweep_filter v ar t) sweep_update
                        (update_doc (sweep_filter v ar m) sweep_update d))).
  - apply eq_sym, count_docs_split. intros id d _.
    rewrite !modifies_matches by auto with sweep.
    destruct (matches (sweep_filter v ar m) d) eqn:Hm; [|done]. simpl.
    by apply (matches_after_update _ _ sweep_update).
  - intros id d _. rewrite !modifies_matches by auto with sweep.
    rewrite matches_max.
    destruct (matches (sweep_filter v ar m) d) eqn:Hm; [done|].
    by rewrite (update_doc_unmatched (sweep_filter v ar m)).
Qed.

Lemma guard_inv_exec ar a s s' :
  exec Guarded ar a s = Some s' → guard_inv s → guard_inv s'.
Proof.
  unfold guard_inv. intros Hexec Hinv. destruct a as [dt|i|i|i fault|i]; simpl in Hexec.
  - destruct (0 <=? dt); [|done]. by injection Hexec as <-.
  - destruct (threads s !! i) as [[| | | |]|] eqn:Hi; try done.
    destruct (locked s) eqn:Hl; [done|]. injection Hexec as <-. simpl.
    pose proof (inside_insert (threads s) i AtEntry InBody Hi) as H. simpl in H. lia.
  - destruct (threads s !! i) as [[| | | |]|] eqn:Hi; try done.
    injection Hexec as <-. simpl.
    pose proof (inside_insert (threads s) i InBody (RoundTrip (clock s)) Hi) as H.
    simpl in H. destruct (locked s); lia.
  - destruct (threads s !! i) as [[| |t| |]|] eqn:Hi; try done.
    destruct (UpdateMany_answer fault (sweep_filter Guarded ar t) sweep_update (world s))
      as [[result err] w].
    injection Hexec as <-. simpl.
    pose proof (inside_insert (threads s) i (RoundTrip t) (Reporting t result err) Hi) as H.
    simpl in H. destruct (locked s); lia.
  - destruct (threads s !! i) as [[| | |t result err|]|] eqn:Hi; try done.
    injection Hexec as <-. simpl.
    pose proof (inside_insert (threads s) i (Reporting t result err) (Done t result err) Hi)
      as H.
    pose proof (inside_two (threads s) i) as Htwo.
    simpl in H. destruct (locked s); lia.
Qed.

Lemma guard_inv_execs ar acts s s' :
  execs Guarded ar acts s = Some s' → guard_inv s → guard_inv s'.
Proof.
  revert s. induction acts as [|a acts IH]; intros s; simpl.
  - by intros [= <-].
  - destruct (exec Guarded ar a s) as [s1|] eqn:Hexec; [|done].
    intros Hrest Hinv. apply (IH s1); [done|]. by apply (guard_inv_exec ar a s).
Qed.

Lemma send_store v ar t w : store (send v ar t w) = store w.
Proof. by destruct v. Qed.

Lemma report_store v result err w : store (report v result err w) = store w.
Proof.
  unfold report. destruct err; [done|].
  destruct v; destruct (0 <? ModifiedCount result); done.
Qed.

Lemma ledger_inv_exec v ar c0 a s s' :
  exec v ar a s = Some s' → ledger_inv v ar c0 s → ledger_inv v ar c0 s'.
Proof.
  unfold ledger_inv. intros Hexec [Hst Hsum].
  destruct a as [dt|i|i|i fault|i]; simpl in Hexec.
  - destruct (0 <=? dt); [|done]. by injection Hexec as <-.
  - destruct (threads s !! i) as [[| | | |]|] eqn:Hi; try done.
    assert (threads s' = <[i:=InBody]> (threads s) ∧ world s' = world s) as [Hth Hw].
    { destruct v; [by injection Hexec as <-|].
      destruct (locked s); [done|]. by injection Hexec as <-. }
    rewrite Hth, Hw, (latest_insert_same _ i AtEntry) by done.
    rewrite (total_modified_insert _ i AtEntry) by done. simpl. split; [done | lia].
  - destruct (threads s !! i) as [[| | | |]|] eqn:Hi; try done.
    injection Hexec as <-. simpl.
    rewrite send_store, (latest_insert_same _ i InBody) by done.
    rewrite (total_modified_insert _ i InBody) by done. simpl. split; [done | lia].
  - destruct (threads s !! i) as [[| |t| |]|] eqn:Hi; try done.
    unfold UpdateMany_answer in Hexec. destruct fault as [err|].
    + injection Hexec as <-. simpl.
      rewrite (latest_insert_same _ i (RoundTrip t)) by done.
      rewrite (total_modified_insert _ i (RoundTrip t)) by done. simpl. split; [done | lia].
    + injection Hexec as <-. simpl.
      rewrite (latest_insert_answer _ i (RoundTrip t) _ t) by done.
      rewrite (total_modified_insert _ i (RoundTrip t)) by done. simpl.
      rewrite Hst, Hsum. split; [apply swept_later|].
      rewrite <- swept_count_later. lia.
  - destruct (threads s !! i) as [[| | |t result err|]|] eqn:Hi; try done.
    assert (threads s' = <[i:=Done t result err]> (threads s) ∧
            store (world s') = store (world s)) as [Hth Hw].
    { destruct v; injection Hexec as <-; simpl; by rewrite report_store. }
    rewrite Hth, Hw, (latest_insert_same _ i (Reporting t result err)) by done.
    rewrite (total_modified_insert _ i (Reporting t result err)) by done.
    split; [done | destruct err; simpl; lia].
Qed.

Lemma ledger_inv_execs v ar c0 acts s s' :
  execs v ar acts s = Some s' → ledger_inv v ar c0 s → ledger_inv v ar c0 s'.
Proof.
  revert s. induction acts as [|a acts IH]; intros s; simpl.
  - by intros [= <-].
  - destruct (exec v ar a s) as [s1|] eqn:Hexec; [|done].
    intros Hrest Hinv. apply (IH s1); [done|]. by apply (ledger_inv_exec v ar c0 a s).
Qed.

Lemma start_invs v ar n t w :
  guard_inv (start n t w) ∧ ledger_inv v ar (store w) (start n t w).
Proof.
  unfold guard_inv, ledger_inv. simpl.
  by rewrite inside_replicate, latest_replicate, total_modified_replicate.
Qed.

(** *** One caller alone is the sequential function *)

Lemma solo_caller v ar t w fault :
  ∃ result err,
    execs v ar [Enter 0%nat; Send 0%nat; Answer 0%nat fault; Leave 0%nat] (start 1 t w)
    = Some {| world :=
                closeExpiredAuctions v ar {| now := t; now_logged := t; fault := fault |} w;
              clock := t;
              locked := false;
              threads := [Done t result err] |}.
Proof.
  destruct v, fault as [e|]; simpl; eexists _, _; reflexivity.
Qed.

(** *** Mutual exclusion *)

Lemma exec_length v ar a s s' :
  exec v ar a s = Some s' → length (threads s') = length (threads s).
Proof.
  intros Hexec. destruct a as [dt|i|i|i fault|i]; simpl in Hexec.
  - destruct (0 <=? dt); [|done]. by injection Hexec as <-.
  - destruct (threads s !! i) as [[| | | |]|]; try done. destruct v.
    + injection Hexec as <-. apply length_insert.
    + destruct (locked s); [done|]. injection Hexec as <-. apply length_insert.
  - destruct (threads s !! i) as [[| | | |]|]; try done.
    injection Hexec as <-. apply length_insert.
  - destruct (threads s !! i) as [[| |t| |]|]; try done.
    destruct (UpdateMany_answer fault (sweep_filter v ar t) sweep_update (world s))
      as [[result err] w].
    injection Hexec as <-. apply length_insert.
  - destruct (threads s !! i) as [[| | |t result err|]|]; try done.
    destruct v; injection Hexec as <-; apply length_insert.
Qed.

Lemma execs_length v ar acts s s' :
  execs v ar acts s = Some s' → length (threads s') = length (threads s).
Proof.
  revert s. induction acts as [|a acts IH]; intros s; simpl.
  - by intros [= <-].
  - destruct (exec v ar a s) as [s1|] eqn:Hexec; [|done].
    intros Hrest. rewrite (IH s1 Hrest). by apply (exec_length v ar a).
Qed.

(** C8, as amended.  In the variant with the mutex, however many callers
    of the sweep are scheduled and however their steps interleave, and in
    [create_auction.go], which has no mutex, as long as the sweep has a
    single caller, the periodic loop: at most one caller is inside the
    body at any time, so no two store round trips overlap; and the counts
    the store gave the callers add up to what one sweep at the latest of
    their clock readings reports on the initial store, which is also the
    store they leave. *)
Theorem sweeps_exclusive v ar n t0 w0 acts s :
  v = Guarded ∨ (n <= 1)%nat →
  execs v ar acts (start n t0 w0) = Some s →
  (∀ i j p q, threads s !! i = Some p → threads s !! j = Some q →
     in_body p = true → in_body q = true → i = j) ∧
  (∀ i j ti tj, threads s !! i = Some (RoundTrip ti) →
     threads s !! j = Some (RoundTrip tj) → i = j) ∧
  match latest (threads s) with
  | None => store (world s) = store w0 ∧ total_modified (threads s) = 0
  | Some t =>
      store (world s)
      = store (closeExpiredAuctions v ar
                 {| now := t; now_logged := t; fault := None |} w0) ∧
      total_modified (threads s)
      = ModifiedCount (UpdateMany None (sweep_filter v ar t) sweep_update w0).1.1
  end.
Proof.
  intros Hguarded Hrun.
  destruct (start_invs v ar n t0 w0) as [Hguard Hledger].
  apply (ledger_inv_execs v ar _ acts _ s Hrun) in Hledger.
  assert (∀ i j p q, threads s !! i = Some p → threads s !! j = Some q →
            in_body p = true → in_body q = true → i = j) as Hexcl.
  { intros i j p q Hi Hj Hp Hq. destruct Hguarded as [->|Hone].
    - apply (guard_inv_execs ar acts _ s Hrun) in Hguard.
      destruct (decide (i = j)) as [|Hne]; [done|].
      pose proof (inside_two (threads s) i j p q Hi Hj Hne Hp Hq) as Htwo.
      unfold guard_inv in Hguard. destruct (locked s); lia.
    - apply execs_length in Hrun. simpl in Hrun. rewrite length_replicate in Hrun.
      apply lookup_lt_Some in Hi, Hj. lia. }
  split; [exact Hexcl|]. split.
  - intros i j ti tj Hi Hj. by apply (Hexcl i j (RoundTrip ti) (RoundTrip tj)).
  - destruct Hledger as [Hst Hsum]. destruct (latest (threads s)) as [t|]; [|done].
    split; [|done]. rewrite Hst, sweep_store. done.
Qed.

(** Two callers of the guarded sweep, the second entering two seconds
    after the first has returned: together they were given the two
    modifications of one sweep at second 103. *)
Lemma sweeps_exclusive_witness :
  ∃ s,
    execs Guarded repo_2s
      [Enter 0%nat; Send 0%nat; Answer 0%nat None; Leave 0%nat; Advance (2 * Second);
       Enter 1%nat; Send 1%nat; Answer 1%nat None; Leave 1%nat]
      (start 2 (101 * Second) two_auctions) = Some s ∧
    latest (threads s) = Some (103 * Second) ∧
    total_modified (threads s)
    = ModifiedCount
        (UpdateMany None (sweep_filter Guarded repo_2s (103 * Second)) sweep_update
           two_auctions).1.1 ∧
    total_modified (threads s) = 2.
Proof.
  eexists. split; [vm_compute; reflexivity|].
  split; [vm_compute; reflexivity|]. split; [|vm_compute; reflexivity].
  match goal with
  | |- total_modified (threads ?s) = _ =>
      assert (execs Guarded repo_2s
                [Enter 0%nat; Send 0%nat; Answer 0%nat None; Leave 0%nat;
                 Advance (2 * Second);
                 Enter 1%nat; Send 1%nat; Answer 1%nat None; Leave 1%nat]
                (start 2 (101 * Second) two_auctions) = Some s) as Hrun
        by (vm_compute; reflexivity);
      destruct (sweeps_exclusive Guarded repo_2s 2 (101 * Second) two_auctions _ s
                  (or_introl eq_refl) Hrun)
        as (_ & _ & Hledger)
  end.
  change (latest (threads _)) with (Some (103 * Second)) in Hledger.
  exact (proj2 Hledger).
Defined.

(** Without the mutex two callers are in their round trips at once. *)
Lemma sweeps_exclusive_counterexample :
  ∃ s,
    execs Plain repo_2s [Enter 0%nat; Enter 1%nat; Send 0%nat; Send 1%nat]
      (start 2 (101 * Second) two_auctions) = Some s ∧
    threads s !! 0%nat = Some (RoundTrip (101 * Second)) ∧
    threads s !! 1%nat = Some (RoundTrip (101 * Second)) ∧
    calls (world s)
    = [CallUpdateMany (sweep_filter Plain repo_2s (101 * Second)) sweep_update;
       CallUpdateMany (sweep_filter Plain repo_2s (101 * Second)) sweep_update].
Proof.
  eexists. split; [vm_compute; reflexivity|]. repeat split.
Qed.

End ThreadFacts.

(** ** Cancellation *)

Lemma closer_loop_done v ar pre post w :
  closer_loop v ar (pre ++ CtxDone :: post) w
  = (Returned, (closer_loop v ar pre w).2).
Proof.
  revert w. induction pre as [|[|e] pre IH]; intros w; simpl; [done..|]. apply IH.
Qed.

Lemma closer_loop_returned v ar cases rest w :
  (closer_loop v ar cases w).1 = Returned →
  closer_loop v ar (cases ++ rest) w = closer_loop v ar cases w.
Proof.
  revert w. induction cases as [|[|e] cases IH]; intros w; simpl; [done..|]. apply IH.
Qed.

Lemma closer_loop_served v ar cases w :
  (closer_loop v ar cases w).2 = run v ar (OpSweep <$> served cases) w.
Proof.
  revert w. induction cases as [|[|e] cases IH]; intros w; simpl; [done..|]. apply IH.
Qed.

Lemma taken_app pre post : taken (pre ++ post) = taken pre ++ taken post.
Proof. apply omap_app. Qed.

Lemma taken_cons r rounds :
  taken (r :: rounds)
  = match select_case r with Some c => c :: taken rounds | None => taken rounds end.
Proof. reflexivity. Qed.

(** C9, as amended.  Once cancellation has been signalled, the loop
    returns at the first [select] that takes the cancellation case: at
    once when no tick is waiting, or when the runtime prefers
    [ctx.Done()] to the waiting tick; the ticker is stopped and the world
    is as the rounds before left it.  However the loop came to return, it
    then starts no sweep, sends no request and changes no entity, whatever
    rounds would follow.  And the world the loop leaves is the one its
    sweeps, each run from call to return, produce in turn: the loop
    interrupts none of them. *)
Theorem cancellation_quiescence v ar pre r post w :
  ctx_done r = true →
  (tick_ready r = None ∨ prefers_tick r = false →
   status (startAuctionCloser v ar (taken (pre ++ r :: post)) w) = Returned ∧
   ticker_stopped (startAuctionCloser v ar (taken (pre ++ r :: post)) w) = true ∧
   final (startAuctionCloser v ar (taken (pre ++ r :: post)) w)
   = final (startAuctionCloser v ar (taken pre) w)) ∧
  (∀ rounds rest,
     status (startAuctionCloser v ar (taken rounds) w) = Returned →
     startAuctionCloser v ar (taken (rounds ++ rest)) w
     = startAuctionCloser v ar (taken rounds) w) ∧
  (∀ rounds,
     final (startAuctionCloser v ar (taken rounds) w)
     = run v ar (OpSweep <$> served (taken rounds)) w).
Proof.
  intros Hdone. unfold startAuctionCloser. rewrite NewTicker_checkInterval.
  split; [|split].
  - intros Hcase.
    assert (select_case r = Some CtxDone) as Hsel.
    { unfold select_case. rewrite Hdone. destruct Hcase as [->| ->]; [done|].
      by destruct (tick_ready r). }
    rewrite taken_app, taken_cons, Hsel, closer_loop_done.
    by destruct (closer_loop v ar (taken pre) w).
  - intros rounds rest. rewrite taken_app.
    destruct (closer_loop v ar (taken rounds) w) as [st w'] eqn:Hpre. simpl.
    intros ->. rewrite closer_loop_returned; by rewrite Hpre.
  - intros rounds. rewrite <- closer_loop_served.
    by destruct (closer_loop v ar (taken rounds) w).
Qed.

(** Cancellation with no tick waiting, after one tick: the three ticks
    that would follow start nothing. *)
Lemma cancellation_quiescence_witness :
  ctx_done {| ctx_done := true; tick_ready := None; prefers_tick := true |} = true ∧
  final
    (startAuctionCloser Guarded repo_2s
       (taken
          ([{| ctx_done := false; tick_ready := Some (tick_at 101 None); prefers_tick := true |}]
           ++ {| ctx_done := true; tick_ready := None; prefers_tick := true |}
           :: [{| ctx_done := true; tick_ready := Some (tick_at 103 None); prefers_tick := false |};
               {| ctx_done := true; tick_ready := Some (tick_at 104 None); prefers_tick := true |};
               {| ctx_done := true; tick_ready := Some (tick_at 105 None); prefers_tick := true |}]))
       two_auctions)
  = final
      (startAuctionCloser Guarded repo_2s
         (taken
            [{| ctx_done := false; tick_ready := Some (tick_at 101 None); prefers_tick := true |}])
         two_auctions).
Proof.
  split; [reflexivity|].
  destruct (cancellation_quiescence Guarded repo_2s
              [{| ctx_done := false; tick_ready := Some (tick_at 101 None);
                  prefers_tick := true |}]
              {| ctx_done := true; tick_ready := None; prefers_tick := true |}
              [{| ctx_done := true; tick_ready := Some (tick_at 103 None);
                  prefers_tick := false |};
               {| ctx_done := true; tick_ready := Some (tick_at 104 None);
                  prefers_tick := true |};
               {| ctx_done := true; tick_ready := Some (tick_at 105 None);
                  prefers_tick := true |}]
              two_auctions eq_refl) as [Hreturn _].
  exact (proj2 (proj2 (Hreturn (or_introl eq_refl)))).
Defined.

(** The claim as first stated fails when a tick waits in the channel at
    the [select] that follows the cancellation and the runtime takes it.
    Here the sweep of second 101 is under way while cancellation is
    signalled and the next tick fires: at the [select] that follows the
    loop does not return, it starts one more sweep, which sends its
    request under the cancelled context and logs the error it gets back. *)
Lemma cancellation_quiescence_counterexample :
  ctx_done
    {| ctx_done := true; tick_ready := Some (tick_at 102 (Some "context canceled"));
       prefers_tick := true |} = true ∧
  status
    (startAuctionCloser Plain repo_2s
       (taken [{| ctx_done := false; tick_ready := Some (tick_at 101 None);
                  prefers_tick := true |};
               {| ctx_done := true;
                  tick_ready := Some (tick_at 102 (Some "context canceled"));
                  prefers_tick := true |}])
       two_auctions) = Waiting ∧
  calls
    (final
       (startAuctionCloser Plain repo_2s
          (taken [{| ctx_done := false; tick_ready := Some (tick_at 101 None);
                     prefers_tick := true |};
                  {| ctx_done := true;
                     tick_ready := Some (tick_at 102 (Some "context canceled"));
                     prefers_tick := true |}])
          two_auctions))
  = [CallUpdateMany (sweep_filter Plain repo_2s (101 * Second)) sweep_update;
     CallUpdateMany (sweep_filter Plain repo_2s (102 * Second)) sweep_update] ∧
  logs
    (final
       (startAuctionCloser Plain repo_2s
          (taken [{| ctx_done := false; tick_ready := Some (tick_at 101 None);
                     prefers_tick := true |};
                  {| ctx_done := true;
                     tick_ready := Some (tick_at 102 (Some "context canceled"));
                     prefers_tick := true |}])
          two_auctions))
  = [LogInfo "Successfully closed 1 expired auction(s)" [];
     LogError "Error trying to close expired auctions" "context canceled"].
Proof.
  split; [reflexivity|]. split; [reflexivity|]. split; [reflexivity|].
  vm_compute. reflexivity.
Qed.

(** * Further properties of the repository *)

(** ** [CreateAuction] *)

Lemma CreateAuction_document fault a w :
  CreateAuction fault a w =
    let '(err, w1) := InsertOne fault (document_of a) w in
    match err with
    | Some e =>
        (Some (NewInternalServerError "Error trying to insert auction"),
         logger_Error "Error trying to insert auction" e w1)
    | None => (None, w1)
    end.
Proof. reflexivity. Qed.

Lemma create_fresh a w :
  store w !! auction_entity.Id a = None →
  CreateAuction None a w
  = (None,
     {| store := <[auction_entity.Id a := document_of a]> (store w);
        calls := calls w ++ [CallInsertOne (document_of a)];
        logs := logs w |}).
Proof.
  intros Hfresh. rewrite CreateAuction_document. unfold InsertOne.
  change (Id (document_of a)) with (auction_entity.Id a). by rewrite Hfresh.
Qed.

(** X1. Creating an auction whose id is not in the collection succeeds:
    the document read back under that id carries every field of the
    entity, the creation instant as whole seconds; every other document
    is as before; one [InsertOne] has gone out and nothing is logged. *)
Theorem create_auction_round_trip a w :
  store w !! auction_entity.Id a = None →
  (CreateAuction None a w).1 = None ∧
  store (CreateAuction None a w).2 !! auction_entity.Id a = Some (document_of a) ∧
  (∀ id, id ≠ auction_entity.Id a →
     store (CreateAuction None a w).2 !! id = store w !! id) ∧
  dom (store (CreateAuction None a w).2) = {[ auction_entity.Id a ]} ∪ dom (store w) ∧
  calls (CreateAuction None a w).2 = calls w ++ [CallInsertOne (document_of a)] ∧
  logs (CreateAuction None a w).2 = logs w.
Proof.
  intros Hfresh. rewrite create_fresh by done. simpl.
  split; [done|]. split; [apply lookup_insert_eq|]. split; [|split; [|done]].
  - intros id Hne. by rewrite lookup_insert_ne.
  - apply dom_insert_L.
Qed.

Lemma create_auction_round_trip_witness :
  store empty_world
    !! auction_entity.Id (auction_created "test-auction-transition" (100 * Second + 210000000))
  = None ∧
  store (CreateAuction None (auction_created "test-auction-transition" (100 * Second + 210000000))
           empty_world).2 !! "test-auction-transition"
  = Some (auction_at "test-auction-transition" auction_entity.Active 100).
Proof.
  split; [reflexivity|].
  destruct (create_auction_round_trip
              (auction_created "test-auction-transition" (100 * Second + 210000000))
              empty_world eq_refl) as (_ & Hread & _).
  exact Hread.
Defined.

(** X2. [CreateAuction] fails exactly when the store reports an error or
    the id is taken.  It then returns the one internal error with the
    fixed message, whatever the cause, logs the cause, and leaves the
    collection as it was: an existing auction is never overwritten.  The
    request has gone out in every case. *)
Theorem create_auction_refused fault a w :
  ((CreateAuction fault a w).1 = None ↔
     fault = None ∧ store w !! auction_entity.Id a = None) ∧
  (∀ err, (CreateAuction fault a w).1 = Some err →
     err = NewInternalServerError "Error trying to insert auction" ∧
     store (CreateAuction fault a w).2 = store w ∧
     ∃ cause,
       logs (CreateAuction fault a w).2
       = logs w ++ [LogError "Error trying to insert auction" cause] ∧
       (fault = Some cause ∨
        (fault = None ∧ is_Some (store w !! auction_entity.Id a)))) ∧
  calls (CreateAuction fault a w).2 = calls w ++ [CallInsertOne (document_of a)].
Proof.
  rewrite CreateAuction_document. unfold InsertOne.
  change (Id (document_of a)) with (auction_entity.Id a).
  destruct fault as [cause|]; simpl.
  - split; [split; [done | by intros [? _]]|]. split; [|done].
    intros err [= <-]. split; [done|]. split; [done|]. exists cause. split; [done | by left].
  - destruct (store w !! auction_entity.Id a) as [d|] eqn:Hid; simpl.
    + split; [split; [done | by intros [_ ?]]|]. split; [|done].
      intros err [= <-]. split; [done|]. split; [done|].
      eexists. split; [done|]. right. split; [done | by eexists].
    + split; [done|]. split; [|done]. intros err [=].
Qed.

(** X3. The stored creation time is the instant cut down to the whole
    second at or before it, also for instants before 1970; two instants
    within the same second leave the very same document. *)
Theorem create_auction_whole_seconds a w :
  store w !! auction_entity.Id a = None →
  ∃ d, store (CreateAuction None a w).2 !! auction_entity.Id a = Some d ∧
    Timestamp d * Second <= auction_entity.Timestamp a < (Timestamp d + 1) * Second ∧
    ∀ t, Timestamp d * Second <= t < (Timestamp d + 1) * Second →
      CreateAuction None (created_at a t) w = CreateAuction None a w.
Proof.
  intros Hfresh. exists (document_of a). rewrite create_fresh by done. simpl.
  split; [apply lookup_insert_eq|]. split.
  - unfold Unix. change Second with 1000000000.
    Z.to_euclidean_division_equations. lia.
  - intros t Ht. rewrite !create_fresh by done.
    assert (document_of (created_at a t) = document_of a) as ->; [|done].
    unfold document_of. simpl. f_equal.
    revert Ht. unfold Unix. change Second with 1000000000.
    intros Ht. Z.to_euclidean_division_equations. nia.
Qed.

Lemma create_auction_whole_seconds_witness :
  store empty_world !! auction_entity.Id (auction_created "a" (- 500000000)) = None ∧
  ∃ d, store (CreateAuction None (auction_created "a" (- 500000000)) empty_world).2
         !! "a" = Some d ∧
       Timestamp d = -1 ∧
       CreateAuction None (created_at (auction_created "a" (- 500000000)) (- 1)) empty_world
       = CreateAuction None (auction_created "a" (- 500000000)) empty_world.
Proof.
  split; [reflexivity|].
  destruct (create_auction_whole_seconds (auction_created "a" (- 500000000)) empty_world
              eq_refl) as (d & Hd & Hts & Hsame).
  exists d. split; [exact Hd|].
  assert (Timestamp d = -1) as Hval.
  { vm_compute in Hd. injection Hd as <-. reflexivity. }
  split; [exact Hval|].
  apply Hsame. rewrite Hval. vm_compute. split; discriminate || reflexivity.
Defined.

(** ** What a sweep reports *)

Lemma matches_active v ar t d :
  matches (sweep_filter v ar t) d = true → (Status d =? auction_entity.Active) = true.
Proof. intros Hm. apply matches_spec in Hm as [Hst _]. by apply Z.eqb_eq. Qed.

Lemma count_status_active_swept v ar t (c : Collection) :
  count_status auction_entity.Active c
  = count_docs (matches (sweep_filter v ar t)) c
    + count_status auction_entity.Active
        (update_doc (sweep_filter v ar t) sweep_update <$> c).
Proof.
  unfold count_status. rewrite count_docs_fmap.
  rewrite <- count_docs_split.
  - apply count_docs_ext. intros id d _.
    destruct (matches (sweep_filter v ar t) d) eqn:Hm; simpl.
    + by apply (matches_active v ar t).
    + by rewrite update_doc_unmatched.
  - intros id d _. destruct (matches (sweep_filter v ar t) d) eqn:Hm; [|done].
    simpl. by rewrite update_doc_matched.
Qed.

Lemma count_status_completed_swept v ar t (c : Collection) :
  count_status auction_entity.Completed
    (update_doc (sweep_filter v ar t) sweep_update <$> c)
  = count_status auction_entity.Completed c
    + count_docs (matches (sweep_filter v ar t)) c.
Proof.
  unfold count_status. rewrite count_docs_fmap.
  rewrite <- count_docs_split.
  - apply count_docs_ext. intros id d _.
    destruct (matches (sweep_filter v ar t) d) eqn:Hm; simpl.
    + rewrite update_doc_matched by done. simpl. by rewrite orb_true_r.
    + rewrite update_doc_unmatched by done. by rewrite orb_false_r.
  - intros id d _. destruct (matches (sweep_filter v ar t) d) eqn:Hm;
      [|by rewrite andb_false_r].
    apply matches_active, Z.eqb_eq in Hm. rewrite Hm. done.
Qed.

Lemma count_docs_nonneg p (c : Collection) : 0 <= count_docs p c.
Proof. unfold count_docs. lia. Qed.

Lemma count_modifies_matches v ar t (c : Collection) :
  count_docs (modifies (sweep_filter v ar t) sweep_update) c
  = count_docs (matches (sweep_filter v ar t)) c.
Proof.
  apply count_docs_ext. intros id d _. apply modifies_matches. auto with sweep.
Qed.

Lemma sweep_logs_applied v ar e w :
  fault e = None →
  logs (closeExpiredAuctions v ar e w) =
    logs w ++
    let n := count_docs (matches (sweep_filter v ar (now e))) (store w) in
    match v with
    | Plain =>
        if 0 <? n then
          [LogInfo ("Successfully closed " +:+ pretty n +:+ " expired auction(s)") []]
        else []
    | Guarded =>
        [LogInfo "Checking for expired auctions"
           [("threshold", expirationThreshold ar (now e)); ("now", Unix (now_logged e))];
         if 0 <? n then LogInfo "Successfully closed expired auctions" [("count", n)]
         else LogInfo "No expired auctions found" []]
    end.
Proof.
  intros Hok. rewrite <- count_modifies_matches. destruct v.
  - change (closeExpiredAuctions Plain ar e w) with
      (let '(result, err, w1) :=
         UpdateMany (fault e) (sweep_filter Plain ar (now e)) sweep_update w in
       match err with
       | Some err => logger_Error "Error trying to close expired auctions" err w1
       | None =>
           if 0 <? ModifiedCount result then
             logger_Info
               ("Successfully closed " +:+ pretty (ModifiedCount result)
                  +:+ " expired auction(s)") [] w1
           else w1
       end).
    unfold UpdateMany, UpdateMany_answer, UpdateMany_request. rewrite Hok.
    cbn [ModifiedCount store].
    destruct (0 <? count_docs (modifies (sweep_filter Plain ar (now e)) sweep_update) (store w));
      simpl; [done | by rewrite app_nil_r].
  - change (closeExpiredAuctions Guarded ar e w) with
      (let w0 :=
         logger_Info "Checking for expired auctions"
           [("threshold", expirationThreshold ar (now e)); ("now", Unix (now_logged e))] w in
       let '(result, err, w1) :=
         UpdateMany (fault e) (sweep_filter Guarded ar (now e)) sweep_update w0 in
       match err with
       | Some err => logger_Error "Error trying to close expired auctions" err w1
       | None =>
           if 0 <? ModifiedCount result then
             logger_Info "Successfully closed expired auctions"
               [("count", ModifiedCount result)] w1
           else logger_Info "No expired auctions found" [] w1
       end).
    unfold UpdateMany, UpdateMany_answer, UpdateMany_request. rewrite Hok.
    cbn [ModifiedCount store logger_Info].
    destruct (0 <? count_docs (modifies (sweep_filter Guarded ar (now e)) sweep_update) (store w));
      simpl; by rewrite <- app_assoc.
Qed.

(** X4. What a sweep the store has answered writes to the log is what it
    did to the collection: the count it reports is the number of auctions
    that were Active before and are Completed after, the number of Active
    auctions has gone down by it and the number of Completed ones up.
    [create_auction.go] writes one line with that count, and none when it
    is zero; the variant with the mutex writes its two lines either way. *)
Theorem sweep_reports_what_it_closed v ar e w :
  fault e = None →
  let w' := closeExpiredAuctions v ar e w in
  let n := count_status auction_entity.Active (store w)
           - count_status auction_entity.Active (store w') in
  0 <= n ∧
  count_status auction_entity.Completed (store w')
  = count_status auction_entity.Completed (store w) + n ∧
  n = count_docs (matches (sweep_filter v ar (now e))) (store w) ∧
  logs w' =
    logs w ++
    match v with
    | Plain =>
        if 0 <? n then
          [LogInfo ("Successfully closed " +:+ pretty n +:+ " expired auction(s)") []]
        else []
    | Guarded =>
        [LogInfo "Checking for expired auctions"
           [("threshold", expirationThreshold ar (now e)); ("now", Unix (now_logged e))];
         if 0 <? n then LogInfo "Successfully closed expired auctions" [("count", n)]
         else LogInfo "No expired auctions found" []]
    end.
Proof.
  intros Hok w' n.
  assert (n = count_docs (matches (sweep_filter v ar (now e))) (store w)) as Hn.
  { subst n w'. rewrite sweep_store, Hok.
    rewrite (count_status_active_swept v ar (now e) (store w)). lia. }
  split; [rewrite Hn; apply count_docs_nonneg|]. split; [|split; [done|]].
  - subst w'. rewrite sweep_store, Hok, count_status_completed_swept. lia.
  - rewrite Hn. subst w'. by apply sweep_logs_applied.
Qed.

(** The sweep of the guarded variant at second 103 closes both auctions
    of the scenario and says so. *)
Lemma sweep_reports_what_it_closed_witness :
  fault (tick_at 103 None) = None ∧
  count_status auction_entity.Active (store two_auctions) = 2 ∧
  count_status auction_entity.Completed
    (store (closeExpiredAuctions Guarded repo_2s (tick_at 103 None) two_auctions)) = 2 ∧
  last (logs (closeExpiredAuctions Guarded repo_2s (tick_at 103 None) two_auctions))
  = Some (LogInfo "Successfully closed expired auctions" [("count", 2)]).
Proof.
  split; [reflexivity|]. split; [vm_compute; reflexivity|].
  destruct (sweep_reports_what_it_closed Guarded repo_2s (tick_at 103 None) two_auctions
              eq_refl) as (_ & Hcompleted & _ & Hlogs).
  split.
  - rewrite Hcompleted. vm_compute. reflexivity.
  - rewrite Hlogs. vm_compute. reflexivity.
Defined.

(** ** Sweeps one after the other *)

Lemma latest_applied_snoc es e :
  latest_applied (es ++ [e])
  = match fault e with
    | None => Threads.later (latest_applied es) (now e)
    | Some _ => latest_applied es
    end.
Proof. unfold latest_applied. by rewrite foldl_app. Qed.

Lemma sweeps_store v ar es w :
  store (run v ar (OpSweep <$> es) w) = Threads.swept v ar (latest_applied es) (store w).
Proof.
  induction es as [|e es IH] using rev_ind; [done|].
  rewrite fmap_app. change (OpSweep <$> [e]) with [OpSweep e].
  rewrite run_snoc, latest_applied_snoc. simpl.
  rewrite sweep_store, IH. destruct (fault e); [done|]. apply swept_later.
Qed.

Lemma latest_applied_from o es :
  foldl (λ acc e, match fault e with
                  | None => Threads.later acc (now e)
                  | Some _ => acc
                  end) o es
  = match latest_applied es with
    | None => o
    | Some t => Threads.later o t
    end.
Proof.
  induction es as [|e es IH] using rev_ind; [done|].
  rewrite foldl_app, latest_applied_snoc. simpl. rewrite IH.
  destruct (fault e); [done|].
  destruct (latest_applied es) as [m|]; [|done].
  destruct o as [x|]; simpl; f_equal; lia.
Qed.

Lemma latest_applied_cons e es :
  latest_applied (e :: es)
  = match fault e, latest_applied es with
    | Some _, o => o
    | None, None => Some (now e)
    | None, Some t => Some (Z.max (now e) t)
    end.
Proof.
  unfold latest_applied at 1. simpl. rewrite latest_applied_from.
  destruct (fault e), (latest_applied es); done.
Qed.

Lemma latest_applied_perm es es' : es ≡ₚ es' → latest_applied es = latest_applied es'.
Proof.
  induction 1 as [|e es es' _ IH|e1 e2 es|es1 es2 es3 _ IH1 _ IH2].
  - done.
  - by rewrite !latest_applied_cons, IH.
  - rewrite !latest_applied_cons.
    destruct (fault e1), (fault e2), (latest_applied es); try done; f_equal; lia.
  - congruence.
Qed.

(** X5. Sweeps one after the other, answered or not, leave the
    collection as one single sweep at the latest clock reading among the
    answered ones would: a sweep with an earlier reading adds nothing, a
    failed one changes nothing, and the order in which they run does not
    matter.  So it is for the sweeps the loop starts. *)
Theorem sweeps_amount_to_the_latest v ar es w :
  store (run v ar (OpSweep <$> es) w)
  = match latest_applied es with
    | None => store w
    | Some t =>
        store (closeExpiredAuctions v ar {| now := t; now_logged := t; fault := None |} w)
    end ∧
  (∀ es', es ≡ₚ es' →
     store (run v ar (OpSweep <$> es') w) = store (run v ar (OpSweep <$> es) w)) ∧
  (∀ e, fault e = None →
     (∃ t, latest_applied es = Some t ∧ now e <= t) →
     store (closeExpiredAuctions v ar e (run v ar (OpSweep <$> es) w))
     = store (run v ar (OpSweep <$> es) w)) ∧
  (∀ cases, served cases = es →
     store (final (startAuctionCloser v ar cases w))
     = store (run v ar (OpSweep <$> es) w)).
Proof.
  split; [|split; [|split]].
  - rewrite sweeps_store. destruct (latest_applied es) as [t|]; [|done].
    by rewrite sweep_store.
  - intros es' Hperm. by rewrite !sweeps_store, (latest_applied_perm es es').
  - intros e Hok (t & Ht & Hle).
    rewrite sweep_store, Hok, sweeps_store, Ht, swept_later. simpl.
    by rewrite Z.max_l.
  - intros cases <-. unfold startAuctionCloser. rewrite NewTicker_checkInterval.
    rewrite <- closer_loop_served. by destruct (closer_loop v ar cases w).
Qed.

(** ** What the loop sends and writes *)

Lemma sweep_dom v ar e w : dom (store (closeExpiredAuctions v ar e w)) = dom (store w).
Proof. rewrite sweep_store. destruct (fault e); [done|]. apply dom_fmap_L. Qed.

Lemma sweep_logs_length v ar e w :
  match v with
  | Plain =>
      (length (logs w) <= length (logs (closeExpiredAuctions v ar e w))
       <= length (logs w) + 1)%nat
  | Guarded =>
      length (logs (closeExpiredAuctions v ar e w)) = (length (logs w) + 2)%nat
  end.
Proof.
  destruct (fault e) as [err|] eqn:Hf.
  - destruct v; unfold_sweep; rewrite Hf; simpl; rewrite ?length_app; simpl; lia.
  - rewrite (sweep_logs_applied v ar e w Hf). destruct v; simpl.
    + destruct (0 <? _); rewrite length_app; simpl; lia.
    + rewrite length_app. simpl. lia.
Qed.

(** X6. The loop sends one batch update for every tick it takes, in the
    order of the ticks and each with the threshold of its own clock
    reading, and nothing else: it never inserts and never deletes, the
    collection keeps its entities.  Per tick [create_auction.go] writes
    at most one line to the log, the variant with the mutex exactly two. *)
Theorem closer_loop_requests v ar cases w :
  calls (final (startAuctionCloser v ar cases w))
  = calls w ++ (request_of v ar <$> served cases) ∧
  dom (store (final (startAuctionCloser v ar cases w))) = dom (store w) ∧
  match v with
  | Plain =>
      (length (logs w) <= length (logs (final (startAuctionCloser v ar cases w)))
       <= length (logs w) + length (served cases))%nat
  | Guarded =>
      length (logs (final (startAuctionCloser v ar cases w)))
      = (length (logs w) + 2 * length (served cases))%nat
  end.
Proof.
  unfold startAuctionCloser. rewrite NewTicker_checkInterval.
  assert (final
            (let '(st, w') := closer_loop v ar cases w in
             {| ticker := Some (checkInterval ar);
                ticker_stopped := match st with Returned => true | _ => false end;
                status := st;
                final := w' |})
          = (closer_loop v ar cases w).2) as ->
    by (by destruct (closer_loop v ar cases w)).
  revert w. induction cases as [|[|e] cases IH]; intros w; simpl.
  - rewrite app_nil_r. split; [done|]. split; [done|]. destruct v; lia.
  - rewrite app_nil_r. split; [done|]. split; [done|]. destruct v; lia.
  - destruct (IH (closeExpiredAuctions v ar e w)) as (Hcalls & Hdom & Hlogs).
    split; [|split].
    + rewrite Hcalls, sweep_calls, <- app_assoc. done.
    + by rewrite Hdom, sweep_dom.
    + pose proof (sweep_logs_length v ar e w) as Hone. destruct v; lia.
Qed.

(** ** An auction from its creation on *)

Lemma run_app v ar ops1 ops2 w :
  run v ar (ops1 ++ ops2) w = run v ar ops2 (run v ar ops1 w).
Proof. unfold run. apply foldl_app. Qed.

Lemma run_cons v ar op ops w : run v ar (op :: ops) w = run v ar ops (step v ar op w).
Proof. reflexivity. Qed.

(** Over any run a document is as it was, or as it was with its status
    set to Completed. *)
Lemma run_document v ar ops w id d :
  store w !! id = Some d →
  store (run v ar ops w) !! id = Some d ∨
  (Status d = auction_entity.Active ∧
   store (run v ar ops w) !! id = Some (apply_set sweep_update d)).
Proof.
  intros Hd. induction ops as [|op ops IH] using rev_ind; [by left|].
  rewrite run_snoc. destruct IH as [Hsame|[Hact Hset]].
  - destruct op as [fault a|e]; simpl.
    + left. by apply create_keeps.
    + destruct (sweep_keeps_or_completes v ar e _ id d Hsame) as [?|(_ & Hm & ?)];
        [by left|].
      right. split; [|done]. by apply matches_spec in Hm as [? _].
  - right. split; [done|]. destruct op as [fault a|e]; simpl.
    + by apply create_keeps.
    + by apply sweep_keeps_completed.
Qed.

Lemma run_completed v ar ops w id d :
  store w !! id = Some d → Status d = auction_entity.Completed →
  store (run v ar ops w) !! id = Some d.
Proof.
  intros Hd Hcomp. destruct (run_document v ar ops w id d Hd) as [?|[Hact _]]; [done|].
  rewrite Hcomp in Hact. by destruct active_neq_completed.
Qed.

Lemma document_matched v ar a t :
  min_int64 < auctionInterval ar → auctionInterval ar <= max_int64 →
  auction_entity.Status a = auction_entity.Active →
  match v with
  | Plain => auction_entity.Timestamp a + auctionInterval ar <= t
  | Guarded => auction_entity.Timestamp a + auctionInterval ar + Second <= t
  end →
  matches (sweep_filter v ar t) (document_of a) = true.
Proof.
  intros Hlo Hhi Hact Hdue. apply sweep_filter_instant; [done..|]. split; [done|].
  simpl. revert Hdue. unfold Unix. change Second with 1000000000.
  destruct v; intros Hdue; Z.to_euclidean_division_equations; lia.
Qed.

Lemma document_unmatched v ar a t :
  is_int64 (auctionInterval ar) →
  match v with
  | Plain => t + Second <= auction_entity.Timestamp a + auctionInterval ar
  | Guarded => t <= auction_entity.Timestamp a + auctionInterval ar
  end →
  matches (sweep_filter v ar t) (document_of a) = false.
Proof.
  intros Hint Hearly. apply not_true_is_false. rewrite sweep_filter_matches.
  intros [_ Hcmp]. pose proof (neg_le_opp _ Hint) as Hneg.
  revert Hcmp Hearly. unfold expirationThreshold, Add. simpl.
  unfold Unix. change Second with 1000000000.
  destruct v; intros Hcmp Hearly; Z.to_euclidean_division_equations; lia.
Qed.

(** X7. An Active auction, once created, is Completed for good after
    the first answered sweep that reads the clock at [createdAt +
    interval] or later, for the variant with the mutex a second later
    than that; whatever creations and sweeps, answered or not, run before,
    in between and after, it then stands in the collection as it was
    created, but Completed. *)
Theorem expired_auction_ends_completed v ar a e pre mid post w :
  min_int64 < auctionInterval ar → auctionInterval ar <= max_int64 →
  auction_entity.Status a = auction_entity.Active →
  store (run v ar pre w) !! auction_entity.Id a = None →
  fault e = None →
  match v with
  | Plain => auction_entity.Timestamp a + auctionInterval ar <= now e
  | Guarded => auction_entity.Timestamp a + auctionInterval ar + Second <= now e
  end →
  store (run v ar (pre ++ OpCreate None a :: mid ++ OpSweep e :: post) w)
    !! auction_entity.Id a
  = Some (apply_set sweep_update (document_of a)).
Proof.
  intros Hlo Hhi Hact Hfresh Hok Hdue.
  rewrite run_app, run_cons, run_app, run_cons.
  set (w1 := run v ar pre w) in *.
  assert (store (step v ar (OpCreate None a) w1) !! auction_entity.Id a
          = Some (document_of a)) as Hcreated.
  { simpl. rewrite create_fresh by done. apply lookup_insert_eq. }
  set (w2 := step v ar (OpCreate None a) w1) in *.
  apply (run_completed v ar post); [|done].
  simpl.
  destruct (run_document v ar mid w2 _ _ Hcreated) as [Hsame|[_ Hset]].
  - rewrite sweep_lookup, Hok, Hsame. simpl.
    rewrite update_doc_matched; [done|]. by apply document_matched.
  - by apply sweep_keeps_completed.
Qed.

(** The auction of [TestAutoCloseAuctionAfterExpiration], created at
    100.21 s: the sweep at second 104 is the first to close it under the
    mutex, the failed one before and the one after change nothing. *)
Lemma expired_auction_ends_completed_witness :
  (min_int64 < auctionInterval repo_2s ∧ auctionInterval repo_2s <= max_int64) ∧
  store
    (run Guarded repo_2s
       ([] ++ OpCreate None (auction_created "test-auction-transition" (100 * Second + 210000000))
           :: [OpSweep (tick_at 101 None); OpSweep (tick_at 103 (Some "timeout"))]
           ++ OpSweep (tick_at 104 None) :: [OpSweep (tick_at 105 None)])
       empty_world)
    !! "test-auction-transition"
  = Some (auction_at "test-auction-transition" auction_entity.Completed 100).
Proof.
  assert (min_int64 < auctionInterval repo_2s) as Hlo by (vm_compute; reflexivity).
  assert (auctionInterval repo_2s <= max_int64) as Hhi by (vm_compute; discriminate).
  split; [done|].
  apply (expired_auction_ends_completed Guarded repo_2s
           (auction_created "test-auction-transition" (100 * Second + 210000000))
           (tick_at 104 None) [] _ _ empty_world Hlo Hhi eq_refl eq_refl eq_refl).
  vm_compute. discriminate.
Defined.

(** X8. A created auction stands exactly as it was created as long as
    every answered sweep reads the clock no later than [createdAt +
    interval] under the mutex, and at least a second before that in
    [create_auction.go]: with the mutex no auction is closed before its
    interval has passed. *)
Theorem unexpired_auction_stays_active v ar a pre post w :
  is_int64 (auctionInterval ar) →
  store (run v ar pre w) !! auction_entity.Id a = None →
  (∀ e, OpSweep e ∈ post → fault e = None →
     match v with
     | Plain => now e + Second <= auction_entity.Timestamp a + auctionInterval ar
     | Guarded => now e <= auction_entity.Timestamp a + auctionInterval ar
     end) →
  store (run v ar (pre ++ OpCreate None a :: post) w) !! auction_entity.Id a
  = Some (document_of a).
Proof.
  intros Hint Hfresh Hearly. rewrite run_app, run_cons.
  set (w1 := run v ar pre w) in *.
  assert (store (step v ar (OpCreate None a) w1) !! auction_entity.Id a
          = Some (document_of a)) as Hcreated.
  { simpl. rewrite create_fresh by done. apply lookup_insert_eq. }
  set (w2 := step v ar (OpCreate None a) w1) in *. clearbody w2.
  induction post as [|op post IH] using rev_ind; [done|].
  rewrite run_snoc.
  assert (store (run v ar post w2) !! auction_entity.Id a = Some (document_of a)) as Hprev.
  { apply IH. intros e He. apply Hearly. apply elem_of_app. by left. }
  destruct op as [fault b|e]; simpl.
  - by apply create_keeps.
  - rewrite sweep_lookup, Hprev. destruct (fault e) eqn:Hf; [done|]. simpl.
    rewrite update_doc_unmatched; [done|]. apply document_unmatched; [done|].
    apply Hearly; [|done]. apply elem_of_app. right. by apply list_elem_of_singleton.
Qed.

(** The same auction under the mutex: the sweeps up to 102.21 s leave it
    Active. *)
Lemma unexpired_auction_stays_active_witness :
  is_int64 (auctionInterval repo_2s) ∧
  store
    (run Guarded repo_2s
       ([] ++ OpCreate None (auction_created "test-auction-transition" (100 * Second + 210000000))
           :: [OpSweep (tick_at 101 None); OpSweep (tick_at 102 None);
               OpSweep {| now := 102 * Second + 210000000;
                          now_logged := 102 * Second + 210000000;
                          fault := None |}])
       empty_world)
    !! "test-auction-transition"
  = Some (auction_at "test-auction-transition" auction_entity.Active 100).
Proof.
  split; [exact repo_2s_int64|].
  apply (unexpired_auction_stays_active Guarded repo_2s
           (auction_created "test-auction-transition" (100 * Second + 210000000))
           [] _ empty_world repo_2s_int64 eq_refl).
  intros e He _.
  apply elem_of_cons in He as [[= ->]|He]; [vm_compute; discriminate|].
  apply elem_of_cons in He as [[= ->]|He]; [vm_compute; discriminate|].
  apply list_elem_of_singleton in He as [= ->]. vm_compute. discriminate.
Defined.

(** ** Callers side by side: no caller is ever stuck *)

Section ThreadProgress.

Import Threads.

Lemma pending_insert l i p q :
  l !! i = Some p →
  (pending (<[i:=q]> l) + remaining p = pending l + remaining q)%nat.
Proof.
  revert i. induction l as [|x l IH]; intros [|i] Hi; simpl in *; try done.
  - injection Hi as ->. lia.
  - specialize (IH i Hi). lia.
Qed.

Lemma pending_replicate n : pending (replicate n AtEntry) = (4 * n)%nat.
Proof. induction n as [|n IH]; simpl; [done | rewrite IH; lia]. Qed.

Lemma pending_done l :
  pending l = 0%nat ↔ ∀ i p, l !! i = Some p → ∃ t result err, p = Done t result err.
Proof.
  induction l as [|x l IH]; simpl.
  - split; [intros _ i p; by rewrite lookup_nil | done].
  - split.
    + intros Hsum [|i] p Hi; simpl in Hi.
      * injection Hi as ->. destruct p; simpl in Hsum; try lia. by eexists _, _, _.
      * apply (proj1 IH) with i; [lia | done].
    + intros Hall. destruct (Hall 0%nat x eq_refl) as (t & result & err & ->). simpl.
      apply IH. intros i p Hi. by apply (Hall (S i)).
Qed.

Lemma inside_none l :
  inside l = 0%nat ↔ ∀ i p, l !! i = Some p → in_body p = false.
Proof.
  induction l as [|x l IH]; simpl.
  - split; [intros _ i p; by rewrite lookup_nil | done].
  - split.
    + intros Hsum [|i] p Hi; simpl in Hi.
      * injection Hi as ->. by destruct (in_body p).
      * apply (proj1 IH) with i; [by destruct (in_body x) | done].
    + intros Hall. rewrite (Hall 0%nat x eq_refl).
      apply IH. intros i p Hi. by apply (Hall (S i)).
Qed.

(** Some caller is inside the body, or none is. *)
Lemma someone_inside l :
  (∃ i p, l !! i = Some p ∧ in_body p = true) ∨ inside l = 0%nat.
Proof.
  induction l as [|x l IH]; simpl; [by right|].
  destruct (in_body x) eqn:Hx; [left; by exists 0%nat, x|].
  destruct IH as [(i & p & Hi & Hp)|Hnone]; [|by right].
  left. by exists (S i), p.
Qed.

(** With nobody inside, a caller that has not returned is at the entry. *)
Lemma someone_at_entry l :
  inside l = 0%nat → pending l ≠ 0%nat → ∃ i, l !! i = Some AtEntry.
Proof.
  induction l as [|x l IH]; simpl; [done|].
  destruct x; simpl; try done.
  - intros _ _. by exists 0%nat.
  - intros Hin Hpend. destruct (IH Hin Hpend) as [i Hi]. by exists (S i).
Qed.

Lemma lock_inv_exec v ar a s s' :
  exec v ar a s = Some s' → lock_inv v s → lock_inv v s'.
Proof.
  destruct v; [|apply guard_inv_exec].
  unfold lock_inv. intros Hexec Hfree. destruct a as [dt|i|i|i fault|i]; simpl in Hexec.
  - destruct (0 <=? dt); [|done]. by injection Hexec as <-.
  - destruct (threads s !! i) as [[| | | |]|]; try done. by injection Hexec as <-.
  - destruct (threads s !! i) as [[| | | |]|]; try done. by injection Hexec as <-.
  - destruct (threads s !! i) as [[| |t| |]|]; try done.
    destruct (UpdateMany_answer fault (sweep_filter Plain ar t) sweep_update (world s))
      as [[result err] w].
    by injection Hexec as <-.
  - destruct (threads s !! i) as [[| | |t result err|]|]; try done.
    by injection Hexec as <-.
Qed.

Lemma lock_inv_execs v ar acts s s' :
  execs v ar acts s = Some s' → lock_inv v s → lock_inv v s'.
Proof.
  revert s. induction acts as [|a acts IH]; intros s; simpl.
  - by intros [= <-].
  - destruct (exec v ar a s) as [s1|] eqn:Hexec; [|done].
    intros Hrest Hinv. apply (IH s1); [done|]. by apply (lock_inv_exec v ar a s).
Qed.

Lemma lock_inv_start v n t w : lock_inv v (start n t w).
Proof. destruct v; [done|]. unfold lock_inv, guard_inv. simpl. by rewrite inside_replicate. Qed.

Lemma lock_inv_free v s : lock_inv v s → inside (threads s) = 0%nat → locked s = false.
Proof.
  destruct v; [done|]. unfold lock_inv, guard_inv. intros Hinv Hnone.
  rewrite Hnone in Hinv. by destruct (locked s).
Qed.

(** A caller that has not returned can take a step: the one inside, if
    there is one, and otherwise any caller at the entry. *)
Lemma caller_progress v ar s :
  lock_inv v s → pending (threads s) ≠ 0%nat →
  ∃ a s', exec v ar a s = Some s' ∧
    S (pending (threads s')) = pending (threads s).
Proof.
  intros Hinv Hpend. destruct (someone_inside (threads s)) as [(i & p & Hi & Hp)|Hnone].
  - destruct p as [| |t|t result err|]; try done.
    + exists (Send i). eexists. simpl. rewrite Hi. split; [done|]. simpl.
      pose proof (pending_insert (threads s) i InBody (RoundTrip (clock s)) Hi) as H.
      simpl in H. lia.
    + exists (Answer i None). simpl. rewrite Hi. eexists. split; [done|].
      simpl.
      pose proof (pending_insert (threads s) i (RoundTrip t)
                    (Reporting t
                       {| MatchedCount :=
                            count_docs (matches (sweep_filter v ar t)) (store (world s));
                          ModifiedCount :=
                            count_docs (modifies (sweep_filter v ar t) sweep_update)
                              (store (world s)) |} None) Hi) as H.
      simpl in H. lia.
    + exists (Leave i). simpl. rewrite Hi.
      pose proof (pending_insert (threads s) i (Reporting t result err) (Done t result err) Hi)
        as H.
      simpl in H. destruct v; eexists; (split; [done|]); simpl; lia.
  - destruct (someone_at_entry _ Hnone Hpend) as [i Hi].
    pose proof (lock_inv_free v s Hinv Hnone) as Hfree.
    pose proof (pending_insert (threads s) i AtEntry InBody Hi) as H. simpl in H.
    exists (Enter i). simpl. rewrite Hi, Hfree.
    destruct v; eexists; (split; [done|]); simpl; lia.
Qed.

Lemma callers_finish v ar k s :
  lock_inv v s → pending (threads s) = k →
  ∃ rest s', execs v ar rest s = Some s' ∧ length rest = k ∧
    pending (threads s') = 0%nat ∧ lock_inv v s'.
Proof.
  revert s. induction k as [|k IH]; intros s Hinv Hk.
  - exists [], s. done.
  - destruct (caller_progress v ar s Hinv) as (a & s1 & Hexec & Hdec); [lia|].
    destruct (IH s1) as (rest & s' & Hrest & Hlen & Hdone & Hinv');
      [by apply (lock_inv_exec v ar a s) | lia |].
    exists (a :: rest), s'. simpl. rewrite Hexec. split; [done|]. split; [lia|]. done.
Qed.

(** X9. However many callers of the sweep are under way and however
    their steps have interleaved, nobody is ever stuck.  With no caller
    inside the body the mutex is free, also after a sweep that ended on a
    store error; as long as some caller has not returned one of them can
    take its next step; and the steps that remain, four per caller from
    [Lock] to the return, can always be run to the end, where every
    caller has returned and the mutex is free. *)
Theorem sweeps_never_stuck v ar n t0 w0 acts s :
  execs v ar acts (start n t0 w0) = Some s →
  ((∀ i p, threads s !! i = Some p → in_body p = false) → locked s = false) ∧
  (pending (threads s) ≠ 0%nat →
   ∃ a s', exec v ar a s = Some s' ∧
     S (pending (threads s')) = pending (threads s)) ∧
  ∃ rest s',
    execs v ar rest s = Some s' ∧
    length rest = pending (threads s) ∧
    (∀ i p, threads s' !! i = Some p → ∃ t result err, p = Done t result err) ∧
    locked s' = false.
Proof.
  intros Hrun.
  pose proof (lock_inv_execs v ar acts _ s Hrun (lock_inv_start v n t0 w0)) as Hinv.
  split; [|split].
  - intros Hnone. apply (lock_inv_free v s Hinv). by apply inside_none.
  - by apply caller_progress.
  - destruct (callers_finish v ar _ s Hinv eq_refl) as (rest & s' & Hrest & Hlen & Hdone & Hinv').
    exists rest, s'. split; [done|]. split; [done|]. split; [by apply pending_done|].
    apply (lock_inv_free v s' Hinv'). apply inside_none. intros i p Hi.
    destruct (proj1 (pending_done _) Hdone i p Hi) as (t & result & err & ->). done.
Qed.

(** Two callers under the mutex, the first just answered with an error:
    five steps remain, and they lead to the end with the mutex free. *)
Lemma sweeps_never_stuck_witness :
  ∃ s,
    execs Guarded repo_2s [Enter 0%nat; Send 0%nat; Answer 0%nat (Some "timeout")]
      (start 2 (101 * Second) two_auctions) = Some s ∧
    locked s = true ∧
    ∃ rest s',
      execs Guarded repo_2s rest s = Some s' ∧ length rest = 5%nat ∧ locked s' = false.
Proof.
  eexists. split; [vm_compute; reflexivity|]. split; [reflexivity|].
  match goal with
  | |- ∃ rest s', execs _ _ rest ?s = _ ∧ _ =>
      assert (execs Guarded repo_2s [Enter 0%nat; Send 0%nat; Answer 0%nat (Some "timeout")]
                (start 2 (101 * Second) two_auctions) = Some s) as Hrun
        by (vm_compute; reflexivity);
      destruct (sweeps_never_stuck Guarded repo_2s 2 (101 * Second) two_auctions _ s Hrun)
        as (_ & _ & rest & s' & Hrest & Hlen & _ & Hfree)
  end.
  exists rest, s'. split; [exact Hrest|]. split; [exact Hlen | exact Hfree].
Defined.

(** X10. Also without the mutex, and however the round trips of the
    callers overlap, the sweeps leave the collection as one single sweep
    at the latest clock reading among the answered callers would, and
    the counts the callers were given add up to what that one sweep
    closes: no auction is counted twice and none is lost. *)
Theorem overlapping_sweeps_agree v ar n t0 w0 acts s :
  execs v ar acts (start n t0 w0) = Some s →
  dom (store (world s)) = dom (store w0) ∧
  match latest (threads s) with
  | None => store (world s) = store w0 ∧ total_modified (threads s) = 0
  | Some t =>
      store (world s)
      = store (closeExpiredAuctions v ar
                 {| now := t; now_logged := t; fault := None |} w0) ∧
      total_modified (threads s)
      = count_status auction_entity.Active (store w0)
        - count_status auction_entity.Active (store (world s))
  end.
Proof.
  intros Hrun. destruct (start_invs v ar n t0 w0) as [_ Hledger].
  apply (ledger_inv_execs v ar _ acts _ s Hrun) in Hledger as [Hst Hsum].
  destruct (latest (threads s)) as [t|]; simpl in *.
  - split; [rewrite Hst; apply dom_fmap_L|]. split; [by rewrite Hst, sweep_store|].
    rewrite Hsum, Hst, count_modifies_matches.
    rewrite (count_status_active_swept v ar t (store w0)). lia.
  - split; [by rewrite Hst|]. done.
Qed.

(** Two callers of [create_auction.go] whose round trips overlap, the
    one that read the clock later answered first: together they were
    given two, the auctions a sweep at second 103 closes. *)
Lemma overlapping_sweeps_agree_witness :
  ∃ s,
    execs Plain repo_2s
      [Enter 0%nat; Enter 1%nat; Send 0%nat; Advance (2 * Second); Send 1%nat;
       Answer 1%nat None; Answer 0%nat None; Leave 1%nat; Leave 0%nat]
      (start 2 (101 * Second) two_auctions) = Some s ∧
    latest (threads s) = Some (103 * Second) ∧
    total_modified (threads s) = 2 ∧
    store (world s)
    = store (closeExpiredAuctions Plain repo_2s (tick_at 103 None) two_auctions).
Proof.
  eexists. split; [vm_compute; reflexivity|].
  split; [vm_compute; reflexivity|]. split; [vm_compute; reflexivity|].
  match goal with
  | |- store (world ?s) = _ =>
      assert (execs Plain repo_2s
                [Enter 0%nat; Enter 1%nat; Send 0%nat; Advance (2 * Second); Send 1%nat;
                 Answer 1%nat None; Answer 0%nat None; Leave 1%nat; Leave 0%nat]
                (start 2 (101 * Second) two_auctions) = Some s) as Hrun
        by (vm_compute; reflexivity);
      destruct (overlapping_sweeps_agree Plain repo_2s 2 (101 * Second) two_auctions _ s Hrun)
        as (_ & Hledger)
  end.
  change (latest (threads _)) with (Some (103 * Second)) in Hledger.
  exact (proj1 Hledger).
Defined.

End ThreadProgress.

(** ** The interval as the environment spells it *)

Section IntervalStrings.

Lemma digit_not_sign c :
  is_digit c = true → (byte_of c =? 45) || (byte_of c =? 43) = false.
Proof.
  unfold is_digit. intros [Hlo Hhi]%andb_true_iff.
  apply Z.leb_le in Hlo. apply orb_false_iff. split; apply Z.eqb_neq; lia.
Qed.

Lemma leadingInt_stop x c s :
  is_digit c = false → leadingInt x (String c s) = Some (x, String c s).
Proof. simpl. by intros ->. Qed.



Lemma ParseDuration_unsigned s :
  match s with
  | String c _ => (byte_of c =? 45) || (byte_of c =? 43) = false
  | EmptyString => True
  end →
  ParseDuration s =
    if String.eqb s "0" then inl 0
    else if String.eqb s "" then inr (ErrInvalidDuration s)
    else
      match parse_groups (String.length s) s 0 s with
      | inr e => inr e
      | inl d => if 2 ^ 63 - 1 <? d then inr (ErrInvalidDuration s) else inl d
      end.
Proof.
  unfold ParseDuration. destruct s as [|c s']; [done|]. by intros ->.
Qed.

Lemma ParseDuration_signed c s :
  (byte_of c =? 45) || (byte_of c =? 43) = true →
  ParseDuration (String c s) =
    if String.eqb s "0" then inl 0
    else if String.eqb s "" then inr (ErrInvalidDuration (String c s))
    else
      match parse_groups (String.length s) (String c s) 0 s with
      | inr e => inr e
      | inl d =>
          if byte_of c =? 45 then inl (neg (wrap64 d))
          else if 2 ^ 63 - 1 <? d then inr (ErrInvalidDuration (String c s))
          else inl d
      end.
Proof. unfold ParseDuration. by intros ->. Qed.





(** *** Numerals *)

Lemma pretty_N_char_digit d :
  (d < 10)%N →
  is_digit (pretty_N_char d) = true ∧ byte_of (pretty_N_char d) - 48 = Z.of_N d.
Proof.
  intros Hd.
  assert (d = 0 ∨ d = 1 ∨ d = 2 ∨ d = 3 ∨ d = 4 ∨ d = 5 ∨ d = 6 ∨ d = 7 ∨ d = 8
          ∨ d = 9)%N as Hcases by lia.
  repeat (destruct Hcases as [->|Hcases]; [by vm_compute|]). subst d. by vm_compute.
Qed.

(** The numeral of [x], read back digit by digit, is [x]. *)
Lemma leadingInt_pretty_N_go x s :
  (0 < x)%N → Z.of_N x <= 2 ^ 63 →
  leadingInt 0 (pretty_N_go x s) = leadingInt (Z.of_N x) s.
Proof.
  revert s. induction (N.lt_wf_0 x) as [x _ IH]. intros s Hpos Hmax.
  rewrite pretty_N_go_step by done.
  destruct (pretty_N_char_digit (x `mod` 10)%N) as [Hdig Hval]; [by apply N.mod_lt|].
  assert (Z.of_N (x `div` 10) * 10 + byte_of (pretty_N_char (x `mod` 10)) - 48 = Z.of_N x)
    as Hx.
  { rewrite <- Z.add_sub_assoc, Hval, N2Z.inj_div, N2Z.inj_mod. change (Z.of_N 10) with 10.
    generalize (Z.of_N x). intros z. Z.to_euclidean_division_equations. lia. }
  assert (Z.of_N (x `div` 10) <= 2 ^ 63 / 10) as Hdiv.
  { rewrite N2Z.inj_div. change (Z.of_N 10) with 10. by apply Z.div_le_mono. }
  destruct (N.eq_dec (x `div` 10)%N 0%N) as [Hzero|Hnz].
  - rewrite Hzero, pretty_N_go_0. rewrite Hzero in Hx. change (Z.of_N 0) with 0 in Hx.
    cbn [leadingInt]. rewrite Hdig.
    rewrite (proj2 (Z.ltb_ge (2 ^ 63 / 10) 0)) by (vm_compute; discriminate).
    rewrite Hx. by rewrite (proj2 (Z.ltb_ge _ _)).
  - rewrite IH.
    + cbn [leadingInt]. rewrite Hdig.
      rewrite (proj2 (Z.ltb_ge _ _)) by done.
      rewrite Hx. by rewrite (proj2 (Z.ltb_ge _ _)).
    + apply N.div_lt; [done | by vm_compute].
    + by apply N.neq_0_lt_0.
    + etrans; [exact Hdiv|]. vm_compute. discriminate.
Qed.

Lemma pretty_N_go_app x s u : pretty_N_go x s +:+ u = pretty_N_go x (s +:+ u).
Proof.
  revert s. induction (N.lt_wf_0 x) as [x _ IH]. intros s.
  destruct (N.eq_dec x 0%N) as [->|Hnz]; [by rewrite !pretty_N_go_0|].
  assert (0 < x)%N as Hpos by (by apply N.neq_0_lt_0).
  rewrite !(pretty_N_go_step x) by done.
  rewrite IH by (apply N.div_lt; [done | by vm_compute]). done.
Qed.

Lemma pretty_N_go_head x s :
  (0 < x)%N →
  ∃ c s', pretty_N_go x s = String c s' ∧ is_digit c = true ∧
    (String.length s <= String.length s')%nat.
Proof.
  revert s. induction (N.lt_wf_0 x) as [x _ IH]. intros s Hpos.
  rewrite pretty_N_go_step by done.
  destruct (pretty_N_char_digit (x `mod` 10)%N) as [Hdig _]; [by apply N.mod_lt|].
  destruct (N.eq_dec (x `div` 10)%N 0%N) as [Hzero|Hnz].
  - rewrite Hzero, pretty_N_go_0. by eexists _, _.
  - destruct (IH (x `div` 10)%N) with (s := String (pretty_N_char (x `mod` 10)) s)
      as (c & s' & Heq & Hc & Hlen);
      [apply N.div_lt; [done | by vm_compute] | by apply N.neq_0_lt_0 |].
    exists c, s'. split; [done|]. split; [done|]. simpl in Hlen. lia.
Qed.

Lemma numeral_before_N (x : N) u :
  Z.of_N x <= 2 ^ 63 → numeral_before (pretty x +:+ u) (Z.of_N x) u.
Proof.
  intros Hmax. unfold pretty, pretty_N. case_decide as Hx.
  - subst x. split; [by eexists _, _|]. reflexivity.
  - rewrite pretty_N_go_app. change ("" +:+ u) with u. split.
    + apply pretty_N_go_head. lia.
    + apply leadingInt_pretty_N_go; [lia | done].
Qed.

(** *** One number and one unit *)

Lemma unitMap_shape u unit :
  unitMap u = Some unit →
  0 < unit ∧ span_unit u = (u, EmptyString) ∧ String.eqb u "" = false ∧
  ∃ c u', u = String c u' ∧ is_digit c = false ∧ is_dot c = false.
Proof.
  unfold unitMap.
  repeat (destruct (String.eqb u _) eqn:Hu;
          [apply String.eqb_eq in Hu as ->; intros [= <-];
           split; [done|]; split; [by vm_compute|]; split; [done|]; by eexists _, _
          |clear Hu]).
  done.
Qed.

Lemma parse_group_whole orig s x u unit :
  numeral_before s x u → unitMap u = Some unit → x * unit <= 2 ^ 63 →
  parse_group orig s = inl (x * unit, EmptyString).
Proof.
  intros [(c0 & s0 & -> & Hc0 & Hlen) Hlead] Hunit Hmax.
  destruct (unitMap_shape u unit Hunit) as (Hpos & Hspan & Hne & c & u' & -> & Hdig & Hdot).
  unfold parse_group. rewrite Hc0, orb_true_r. cbn [negb].
  rewrite Hlead, leadingInt_stop by done.
  assert ((String.length (String c0 s0) =? String.length (String c u'))%nat = false) as ->.
  { apply Nat.eqb_neq. simpl in *. lia. }
  rewrite Hdot. cbn [negb andb]. rewrite Hspan, Hne, Hunit.
  rewrite (proj2 (Z.ltb_ge _ _)) by (apply Z.div_le_lower_bound; lia).
  done.
Qed.

Lemma ParseDuration_whole s x u unit :
  numeral_before s x u → unitMap u = Some unit → 0 <= x →
  (x * unit <= 2 ^ 63 - 1 → ParseDuration s = inl (x * unit)) ∧
  (x * unit <= 2 ^ 63 → ParseDuration ("-" +:+ s) = inl (- (x * unit))).
Proof.
  intros Hnum Hunit Hx.
  destruct (unitMap_shape u unit Hunit) as (Hpos & _ & Hne & c & u' & Hu & _).
  pose proof Hnum as [(c0 & s0 & Hs & Hc0 & Hlen) _].
  assert (String.eqb s "0" = false) as Hne0.
  { apply String.eqb_neq. intros ->. injection Hs as _ <-. subst u. simpl in Hlen. lia. }
  assert (String.eqb s "" = false) as Hnonempty by (by rewrite Hs).
  assert (∀ orig, x * unit <= 2 ^ 63 →
            parse_groups (String.length s) orig 0 s = inl (x * unit)) as Hgroups.
  { intros orig Hmax. rewrite Hs. cbn [String.length parse_groups]. rewrite <- Hs.
    rewrite (parse_group_whole orig s x u unit) by done.
    rewrite Z.add_0_l, Z.mod_small by nia.
    rewrite (proj2 (Z.ltb_ge _ _)) by done. by destruct (String.length s0). }
  split.
  - intros Hmax. rewrite ParseDuration_unsigned by (rewrite Hs; by apply digit_not_sign).
    rewrite Hne0, Hnonempty, Hgroups by lia.
    by rewrite (proj2 (Z.ltb_ge _ _)).
  - intros Hmax. change ("-" +:+ s) with (String "-" s).
    rewrite ParseDuration_signed by done. rewrite Hne0, Hnonempty, Hgroups by done.
    cbn [Z.eqb byte_of]. change (byte_of "-" =? 45) with true. cbn iota. f_equal.
    unfold neg, wrap64.
    destruct (Z.eq_dec (x * unit) (2 ^ 63)) as [->|Hlt]; [by vm_compute|].
    rewrite (Z.mod_small (x * unit + 2 ^ 63)) by nia.
    replace (x * unit + 2 ^ 63 - 2 ^ 63) with (x * unit) by lia.
    destruct (Z.eq_dec (x * unit) 0) as [->|Hnz]; [by vm_compute|].
    rewrite Z.mod_small; nia.
Qed.

(** X12. A whole number followed by one of the units [ns], [us] (in its
    three spellings), [ms], [s], [m], [h] is read back as that many
    units: the interval is exactly [n] times the unit, for every [n],
    negative ones included, whose product with the unit is an [int64]. *)
Theorem interval_in_whole_units env (n : Z) u unit :
  unitMap u = Some unit → is_int64 (n * unit) →
  env !! "AUCTION_INTERVAL" = Some (pretty n +:+ u) →
  getAuctionInterval env = n * unit.
Proof.
  intros Hunit [Hlo Hhi] Henv. unfold getAuctionInterval, Getenv. rewrite Henv. simpl.
  destruct (unitMap_shape u unit Hunit) as (Hpos & _).
  unfold min_int64, max_int64 in *.
  destruct n as [|p|p].
  - change (pretty 0) with "0".
    destruct (ParseDuration_whole ("0" +:+ u) 0 u unit) as [-> _];
      [apply (numeral_before_N 0 u); by vm_compute | done | done | lia | done].
  - change (pretty (Z.pos p)) with (pretty (N.pos p)).
    destruct (ParseDuration_whole (pretty (N.pos p) +:+ u) (Z.pos p) u unit) as [-> _];
      [apply (numeral_before_N (N.pos p) u); simpl; nia | done | done | lia | done].
  - change (pretty (Z.neg p) +:+ u) with ("-" +:+ (pretty (N.pos p) +:+ u)).
    destruct (ParseDuration_whole (pretty (N.pos p) +:+ u) (Z.pos p) u unit) as [_ ->];
      [apply (numeral_before_N (N.pos p) u); simpl; nia | done | done | lia | ].
    f_equal. lia.
Qed.

(** The interval of the tests, two seconds, and the two ends of the
    range in nanoseconds. *)
Lemma interval_in_whole_units_witness :
  (unitMap "s" = Some Second ∧ is_int64 (2 * Second)) ∧
  getAuctionInterval {[ "AUCTION_INTERVAL" := "2s" ]} = 2 * Second ∧
  getAuctionInterval {[ "AUCTION_INTERVAL" := "-9223372036854775808ns" ]} = min_int64.
Proof.
  assert (is_int64 (2 * Second)) as H2 by (vm_compute; split; discriminate).
  assert (is_int64 (min_int64 * Nanosecond)) as Hmin by (vm_compute; split; discriminate).
  assert (({[ "AUCTION_INTERVAL" := "2s" ]} : gmap string string) !! "AUCTION_INTERVAL"
          = Some (pretty 2 +:+ "s")) as Henv2 by (vm_compute; reflexivity).
  assert (({[ "AUCTION_INTERVAL" := "-9223372036854775808ns" ]} : gmap string string)
            !! "AUCTION_INTERVAL"
          = Some (pretty min_int64 +:+ "ns")) as Henvmin by (vm_compute; reflexivity).
  split; [split; [reflexivity | exact H2]|]. split.
  - apply (interval_in_whole_units {[ "AUCTION_INTERVAL" := "2s" ]} 2 "s" Second
             eq_refl H2 Henv2).
  - rewrite (interval_in_whole_units {[ "AUCTION_INTERVAL" := "-9223372036854775808ns" ]}
               min_int64 "ns" Nanosecond eq_refl Hmin Henvmin).
    reflexivity.
Defined.

End IntervalStrings.

(** ** The tests *)

Section TestFacts.

Lemma closed_by_app v ar es1 es2 d :
  closed_by v ar (es1 ++ es2) d = closed_by v ar es1 d || closed_by v ar es2 d.
Proof. apply existsb_app. Qed.

Lemma closed_by_completed v ar es d :
  Status d = auction_entity.Completed → closed_by v ar es d = false.
Proof.
  intros Hcomp. induction es as [|e es IH]; [done|]. simpl. rewrite IH, orb_false_r.
  apply andb_false_iff. right. apply not_true_is_false. intros Hm.
  apply matches_spec in Hm as [Hst _]. simpl in Hst. rewrite Hcomp in Hst. discriminate.
Qed.

Lemma closed_by_spec v ar es d :
  closed_by v ar es d = true ↔
    ∃ e, e ∈ es ∧ fault e = None ∧ matches (sweep_filter v ar (now e)) d = true.
Proof.
  unfold closed_by. rewrite existsb_exists. split.
  - intros (e & Hin & [Hok Hm]%andb_true_iff). exists e.
    split; [by apply list_elem_of_In|]. split; [by apply bool_decide_eq_true in Hok | done].
  - intros (e & Hin & Hok & Hm). exists e. split; [by apply list_elem_of_In|].
    apply andb_true_iff. split; [by apply bool_decide_eq_true | done].
Qed.

Lemma closed_by_none v ar es d :
  closed_by v ar es d = false ↔
    ∀ e, e ∈ es → fault e = None → matches (sweep_filter v ar (now e)) d = false.
Proof.
  split.
  - intros Hnone e Hin Hok. apply not_true_is_false. intros Hm.
    assert (closed_by v ar es d = true) as Hsome
      by (apply closed_by_spec; by exists e).
    congruence.
  - intros Hall. apply not_true_is_false. intros (e & Hin & Hok & Hm)%closed_by_spec.
    rewrite (Hall e Hin Hok) in Hm. discriminate.
Qed.

(** The latest answered reading decides: a sweep at it matches what any
    of the answered sweeps matches. *)
Lemma latest_applied_closes v ar es d :
  match latest_applied es with
  | None => closed_by v ar es d = false
  | Some t => matches (sweep_filter v ar t) d = closed_by v ar es d
  end.
Proof.
  induction es as [|e es IH] using rev_ind; [done|].
  rewrite latest_applied_snoc, closed_by_app. simpl. rewrite orb_false_r.
  destruct (fault e) as [err|] eqn:Hf; simpl.
  - rewrite orb_false_r. exact IH.
  - destruct (latest_applied es) as [m|]; simpl.
    + by rewrite matches_max, IH.
    + by rewrite IH.
Qed.

Lemma closer_lookup v ar es w id d :
  store w !! id = Some d →
  store (run v ar (OpSweep <$> es) w) !! id
  = Some (if closed_by v ar es d then apply_set sweep_update d else d).
Proof.
  intros Hd. rewrite sweeps_store. pose proof (latest_applied_closes v ar es d) as Hlatest.
  destruct (latest_applied es) as [t|]; simpl.
  - rewrite lookup_fmap, Hd. simpl. unfold update_doc. by rewrite Hlatest.
  - by rewrite Hd, Hlatest.
Qed.

Lemma closer_lookup_None v ar es w id :
  store w !! id = None → store (run v ar (OpSweep <$> es) w) !! id = None.
Proof.
  intros Hd. rewrite sweeps_store. destruct (latest_applied es); simpl; [|done].
  by rewrite lookup_fmap, Hd.
Qed.

Lemma Setenv_interval env :
  getAuctionInterval (Setenv "AUCTION_INTERVAL" "2s" env) = 2 * Second.
Proof.
  unfold getAuctionInterval, Getenv, Setenv. rewrite lookup_insert_eq. reflexivity.
Qed.

Lemma Unix_Add_seconds t k : Unix (Add t (k * Second)) = Unix t + k.
Proof.
  unfold Unix, Add. change Second with 1000000000. by rewrite Z.div_add.
Qed.

(** With an interval of two seconds: from which clock reading on a
    sweep matches an Active document. *)
Lemma matches_two_seconds v ar t d :
  auctionInterval ar = 2 * Second → Status d = auction_entity.Active →
  matches (sweep_filter v ar t) d = true ↔
    (Timestamp d + match v with Plain => 2 | Guarded => 3 end) * Second <= t.
Proof.
  intros Hint Hact. rewrite sweep_filter_instant; rewrite Hint;
    [|by vm_compute|by vm_compute].
  change Second with 1000000000. destruct v; split; [intros [_ ?]|split; [done|]|
    intros [_ ?]|split; [done|]]; lia.
Qed.

(** The two auctions of [TestAutoCloseAuction] as they are stored. *)
Lemma create_both_verdict New Used v repo dated x :
  let expired :=
    {| Id := "test-auction-expired";
       ProductName := "Test Product";
       Category := "Test Category";
       Description := "Test Description for the auction";
       Condition := New;
       Status := auction_entity.Active;
       Timestamp := Unix (Add (now_expired x) (-3 * Second)) |} in
  let active :=
    {| Id := "test-auction-active";
       ProductName := "Active Product";
       Category := "Test Category";
       Description := "This auction should stay open";
       Condition := Used;
       Status := auction_entity.Active;
       Timestamp := Unix (dated (now_active x)) |} in
  create_both New Used v repo dated x = [] ↔
    insert_expired x = None ∧ insert_active x = None ∧
    read_expired x = None ∧ read_active x = None ∧
    closed_by v repo (sweeps_between x ++ sweeps_asleep x) expired = true ∧
    closed_by v repo (sweeps_asleep x ++ sweeps_reading x) active = false.
Proof.
  intros expired active. unfold create_both, closer.
  destruct (insert_expired x) as [err|].
  { rewrite CreateAuction_document. simpl. split; [done | by intros [? _]]. }
  rewrite create_fresh by (by apply closer_lookup_None).
  cbn [auction_entity.Id]. cbn iota zeta.
  change (document_of _) with expired.
  set (w0 := run v repo (OpSweep <$> sweeps_at_start x) empty_world).
  set (w1 := {| store := <["test-auction-expired" := expired]> (store w0);
                calls := calls w0 ++ [CallInsertOne expired];
                logs := logs w0 |}).
  assert (store w1 !! "test-auction-expired" = Some expired) as Hexp1
    by apply lookup_insert_eq.
  assert (store w1 !! "test-auction-active" = None) as Hact1.
  { simpl. rewrite lookup_insert_ne by done. by apply closer_lookup_None. }
  set (w2 := run v repo (OpSweep <$> sweeps_between x) w1).
  pose proof (closer_lookup v repo (sweeps_between x) w1 _ _ Hexp1) as Hexp2.
  pose proof (closer_lookup_None v repo (sweeps_between x) w1 _ Hact1) as Hact2.
  fold w2 in Hexp2, Hact2.
  destruct (insert_active x) as [err|].
  { rewrite CreateAuction_document. unfold InsertOne. simpl.
    split; [done | by intros (_ & ? & _)]. }
  rewrite create_fresh by done.
  cbn [auction_entity.Id]. cbn iota zeta.
  change (document_of _) with active.
  set (w3 := {| store := <["test-auction-active" := active]> (store w2);
                calls := calls w2 ++ [CallInsertOne active];
                logs := logs w2 |}).
  assert (store w3 !! "test-auction-active" = Some active) as Hact3
    by apply lookup_insert_eq.
  assert (store w3 !! "test-auction-expired"
          = Some (if closed_by v repo (sweeps_between x) expired
                  then apply_set sweep_update expired else expired)) as Hexp3.
  { simpl. by rewrite lookup_insert_ne. }
  set (w4 := run v repo (OpSweep <$> sweeps_asleep x) w3).
  pose proof (closer_lookup v repo (sweeps_asleep x) w3 _ _ Hexp3) as Hexp4.
  pose proof (closer_lookup v repo (sweeps_asleep x) w3 _ _ Hact3) as Hact4.
  fold w4 in Hexp4, Hact4.
  unfold read_both, closer, FindOne.
  destruct (read_expired x) as [err|].
  { split; [done | by intros (_ & _ & ? & _)]. }
  rewrite Hexp4. cbn iota.
  destruct (read_active x) as [err|].
  { split; [|by intros (_ & _ & _ & ? & _)].
    intros Hnil. apply (f_equal length) in Hnil. rewrite length_app in Hnil.
    simpl in Hnil. lia. }
  rewrite (closer_lookup v repo (sweeps_reading x) w4 _ _ Hact4).
  rewrite !closed_by_app.
  assert (closed_by v repo (sweeps_asleep x) (apply_set sweep_update expired) = false)
    as Hdone1 by (by apply closed_by_completed).
  assert (closed_by v repo (sweeps_reading x) (apply_set sweep_update active) = false)
    as Hdone2 by (by apply closed_by_completed).
  destruct (closed_by v repo (sweeps_between x) expired);
    [rewrite Hdone1|destruct (closed_by v repo (sweeps_asleep x) expired)];
    (destruct (closed_by v repo (sweeps_asleep x) active);
     [rewrite Hdone2|destruct (closed_by v repo (sweeps_reading x) active)]);
    simpl; split; (done || (intros (_ & _ & _ & _ & ? & ?); done) || idtac).
Qed.

Lemma create_and_wait_verdict Refurbished v repo x :
  let created :=
    {| Id := "test-auction-transition";
       ProductName := "Transition Product";
       Category := "Electronics";
       Description := "This auction will expire during the test";
       Condition := Refurbished;
       Status := auction_entity.Active;
       Timestamp := Unix (now_created x) |} in
  create_and_wait Refurbished v repo x = [] ↔
    insert_created x = None ∧ read_fresh x = None ∧ read_late x = None ∧
    closed_by v repo (sweeps_fresh x) created = false ∧
    closed_by v repo (sweeps_waiting x) created = true.
Proof.
  intros created. unfold create_and_wait, closer.
  destruct (insert_created x) as [err|].
  { rewrite CreateAuction_document. simpl. split; [done | by intros [? _]]. }
  rewrite create_fresh by (by apply closer_lookup_None).
  cbn [auction_entity.Id]. cbn iota zeta.
  change (document_of _) with created.
  set (w0 := run v repo (OpSweep <$> sweeps_first x) empty_world).
  set (w1 := {| store := <["test-auction-transition" := created]> (store w0);
                calls := calls w0 ++ [CallInsertOne created];
                logs := logs w0 |}).
  assert (store w1 !! "test-auction-transition" = Some created) as H1
    by apply lookup_insert_eq.
  set (w2 := run v repo (OpSweep <$> sweeps_fresh x) w1).
  pose proof (closer_lookup v repo (sweeps_fresh x) w1 _ _ H1) as H2. fold w2 in H2.
  unfold FindOne.
  destruct (read_fresh x) as [err|].
  { split; [done | by intros (_ & ? & _)]. }
  rewrite H2. cbn iota.
  destruct (read_late x) as [err|].
  { split; [|by intros (_ & _ & ? & _)].
    intros Hnil. apply (f_equal length) in Hnil. rewrite length_app in Hnil.
    simpl in Hnil. lia. }
  rewrite (closer_lookup v repo (sweeps_waiting x) w2 _ _ H2).
  assert (closed_by v repo (sweeps_waiting x) (apply_set sweep_update created) = false)
    as Hdone by (by apply closed_by_completed).
  destruct (closed_by v repo (sweeps_fresh x) created);
    [rewrite Hdone|destruct (closed_by v repo (sweeps_waiting x) created)];
    simpl; split; (done || (intros (_ & _ & _ & ? & ?); done) || idtac).
Qed.

Lemma test_repo_interval env name :
  auctionInterval (NewAuctionRepositoryWithCollection (Setenv "AUCTION_INTERVAL" "2s" env) name)
  = 2 * Second.
Proof. apply Setenv_interval. Qed.

(** In a test: an answered sweep among [es] matches the Active document
    [d] when one of them reads the clock two seconds, three with the
    mutex, past the stored second. *)
Lemma closed_by_two_seconds v ar es d :
  auctionInterval ar = 2 * Second → Status d = auction_entity.Active →
  (closed_by v ar es d = true ↔
     ∃ e, e ∈ es ∧ fault e = None ∧
       (Timestamp d + match v with Plain => 2 | Guarded => 3 end) * Second <= now e) ∧
  (closed_by v ar es d = false ↔
     ∀ e, e ∈ es → fault e = None →
       now e < (Timestamp d + match v with Plain => 2 | Guarded => 3 end) * Second).
Proof.
  intros Hint Hact. split.
  - rewrite closed_by_spec. split; intros (e & Hin & Hok & Hm); exists e;
      (split; [done|]); (split; [done|]); by apply (matches_two_seconds v ar).
  - rewrite closed_by_none. split; intros Hall e Hin Hok; specialize (Hall e Hin Hok).
    + apply Z.lt_nge. intros Hle. apply (matches_two_seconds v ar (now e) d Hint Hact) in Hle.
      congruence.
    + apply not_true_is_false. intros Hm.
      apply (matches_two_seconds v ar (now e) d Hint Hact) in Hm. lia.
Qed.

(** X13. The first version of [TestAutoCloseAuction], which dates the
    auction that is to stay open at the present instant, passes exactly
    when both insertions succeed, both reads are answered without error,
    an answered sweep between the first insertion and the first read
    reads the clock no earlier than one second before the second of the
    first [time.Now()], that second itself under the mutex, and no
    answered sweep between the second insertion and the second read
    reads the clock two whole seconds or more past the second of the
    second [time.Now()], three under the mutex. *)
Theorem test_auto_close_first_version New Used v environ x :
  create_auction_test.TestAutoCloseAuction New Used v environ x = [] ↔
    insert_expired x = None ∧ insert_active x = None ∧
    read_expired x = None ∧ read_active x = None ∧
    (∃ e, e ∈ sweeps_between x ++ sweeps_asleep x ∧ fault e = None ∧
       (Unix (now_expired x) - match v with Plain => 1 | Guarded => 0 end) * Second
       <= now e) ∧
    (∀ e, e ∈ sweeps_asleep x ++ sweeps_reading x → fault e = None →
       now e < (Unix (now_active x) + match v with Plain => 2 | Guarded => 3 end) * Second).
Proof.
  unfold create_auction_test.TestAutoCloseAuction. cbn zeta.
  rewrite create_both_verdict. cbn zeta.
  pose proof (test_repo_interval environ "auctions") as Hint.
  fold (NewAuctionRepository (Setenv "AUCTION_INTERVAL" "2s" environ)) in Hint.
  match goal with
  | |- _ ∧ _ ∧ _ ∧ _ ∧ closed_by _ ?ar ?es1 ?d1 = true ∧ closed_by _ _ ?es2 ?d2 = false
       ↔ _ =>
      destruct (closed_by_two_seconds v ar es1 d1 Hint eq_refl) as [-> _];
      destruct (closed_by_two_seconds v ar es2 d2 Hint eq_refl) as [_ ->]
  end.
  cbn [Timestamp]. rewrite (Unix_Add_seconds _ (-3)).
  assert (∀ t e, (Unix t + -3 + match v with Plain => 2 | Guarded => 3 end) * Second <= now e
                 ↔ (Unix t - match v with Plain => 1 | Guarded => 0 end) * Second <= now e)
    as Hshift by (intros t e; destruct v; split; intros; lia).
  setoid_rewrite Hshift. done.
Qed.

(** The closer starts at 100.5 s, the two auctions are created within
    the next millisecond, the ticks come at 101.5 s and 102.5 s and the
    reads after them.  Against [create_auction.go] the second tick closes
    the auction that was to stay open and the first version of the test
    fails; under the mutex both versions pass, unless a read is refused. *)
Example test_auto_close_half_past :
  create_auction_test.TestAutoCloseAuction 1 2 Plain ∅ run_half_past
  = [Errorf "Expected active auction status to be Active (%d), got %d"
       [auction_entity.Active; auction_entity.Completed]] ∧
  create_auction_test.TestAutoCloseAuction 1 2 Guarded ∅ run_half_past = [] ∧
  guarded_test.TestAutoCloseAuction 1 2 ∅ (100 * Second) run_half_past = [] ∧
  guarded_test.TestAutoCloseAuction 1 2 ∅ (100 * Second) run_read_refused
  = [Fatalf "Failed to find active auction: %v"].
Proof. repeat split; vm_compute; reflexivity. Qed.

(** X14. The second version of [TestAutoCloseAuction], which dates the
    auction that is to stay open six seconds ahead, passes exactly when
    both insertions succeed, both reads are answered without error, an
    answered sweep between the first insertion and the first read reads
    the clock in the second of the first [time.Now()] or later, and no
    answered sweep between the second insertion and the second read
    reads the clock nine whole seconds or more past the second of the
    second [time.Now()]. *)
Theorem test_auto_close_second_version New Used environ started x :
  guarded_test.TestAutoCloseAuction New Used environ started x = [] ↔
    insert_expired x = None ∧ insert_active x = None ∧
    read_expired x = None ∧ read_active x = None ∧
    (∃ e, e ∈ sweeps_between x ++ sweeps_asleep x ∧ fault e = None ∧
       Unix (now_expired x) * Second <= now e) ∧
    (∀ e, e ∈ sweeps_asleep x ++ sweeps_reading x → fault e = None →
       now e < (Unix (now_active x) + 9) * Second).
Proof.
  unfold guarded_test.TestAutoCloseAuction. cbn zeta.
  rewrite create_both_verdict. cbn zeta.
  pose proof (test_repo_interval environ ("auctions_test_" +:+ pretty started)) as Hint.
  match goal with
  | |- _ ∧ _ ∧ _ ∧ _ ∧ closed_by _ ?ar ?es1 ?d1 = true ∧ closed_by _ _ ?es2 ?d2 = false
       ↔ _ =>
      destruct (closed_by_two_seconds Guarded ar es1 d1 Hint eq_refl) as [-> _];
      destruct (closed_by_two_seconds Guarded ar es2 d2 Hint eq_refl) as [_ ->]
  end.
  cbn [Timestamp]. rewrite (Unix_Add_seconds _ (-3)).
  change (Second * 6) with (6 * Second). rewrite (Unix_Add_seconds _ 6).
  assert (∀ t e, (Unix t + -3 + 3) * Second <= now e ↔ Unix t * Second <= now e)
    as Hshift1 by (intros t e; split; intros; lia).
  assert (∀ t e, now e < (Unix t + 6 + 3) * Second ↔ now e < (Unix t + 9) * Second)
    as Hshift2 by (intros t e; split; intros; lia).
  setoid_rewrite Hshift1. setoid_rewrite Hshift2. done.
Qed.

(** X15. [TestAutoCloseAuctionAfterExpiration], in both versions, passes
    exactly when the insertion succeeds, both reads are answered without
    error, no answered sweep between the insertion and the first read
    reads the clock two whole seconds or more past the second of the
    creation, three under the mutex, and an answered sweep during the
    sleep of four seconds does. *)
Theorem test_after_expiration Refurbished v environ started x :
  (create_auction_test.TestAutoCloseAuctionAfterExpiration Refurbished v environ x = [] ↔
     insert_created x = None ∧ read_fresh x = None ∧ read_late x = None ∧
     (∀ e, e ∈ sweeps_fresh x → fault e = None →
        now e < (Unix (now_created x) + match v with Plain => 2 | Guarded => 3 end) * Second) ∧
     (∃ e, e ∈ sweeps_waiting x ∧ fault e = None ∧
        (Unix (now_created x) + match v with Plain => 2 | Guarded => 3 end) * Second
        <= now e)) ∧
  (guarded_test.TestAutoCloseAuctionAfterExpiration Refurbished environ started x = [] ↔
     insert_created x = None ∧ read_fresh x = None ∧ read_late x = None ∧
     (∀ e, e ∈ sweeps_fresh x → fault e = None →
        now e < (Unix (now_created x) + 3) * Second) ∧
     (∃ e, e ∈ sweeps_waiting x ∧ fault e = None ∧
        (Unix (now_created x) + 3) * Second <= now e)).
Proof.
  split.
  - unfold create_auction_test.TestAutoCloseAuctionAfterExpiration. cbn zeta.
    rewrite create_and_wait_verdict. cbn zeta.
    pose proof (test_repo_interval environ "auctions") as Hint.
    fold (NewAuctionRepository (Setenv "AUCTION_INTERVAL" "2s" environ)) in Hint.
    match goal with
    | |- _ ∧ _ ∧ _ ∧ closed_by _ ?ar ?es1 ?d = false ∧ closed_by _ _ ?es2 _ = true ↔ _ =>
        destruct (closed_by_two_seconds v ar es1 d Hint eq_refl) as [_ ->];
        destruct (closed_by_two_seconds v ar es2 d Hint eq_refl) as [-> _]
    end.
    done.
  - unfold guarded_test.TestAutoCloseAuctionAfterExpiration. cbn zeta.
    rewrite create_and_wait_verdict. cbn zeta.
    pose proof (test_repo_interval environ ("auctions_test_" +:+ pretty started)) as Hint.
    match goal with
    | |- _ ∧ _ ∧ _ ∧ closed_by _ ?ar ?es1 ?d = false ∧ closed_by _ _ ?es2 _ = true ↔ _ =>
        destruct (closed_by_two_seconds Guarded ar es1 d Hint eq_refl) as [_ ->];
        destruct (closed_by_two_seconds Guarded ar es2 d Hint eq_refl) as [-> _]
    end.
    done.
Qed.

End TestFacts.

(** ** The two variants side by side *)

Lemma expirationThreshold_second ar t :
  expirationThreshold ar (t - Second) = expirationThreshold ar t - 1.
Proof.
  unfold expirationThreshold, Add, Unix. change Second with 1000000000.
  replace (t - 1000000000 + neg (auctionInterval ar))
    with (t + neg (auctionInterval ar) + (-1) * 1000000000) by lia.
  rewrite Z.div_add by done. lia.
Qed.

Lemma guarded_matches_plain ar t d :
  matches (sweep_filter Guarded ar t) d = matches (sweep_filter Plain ar (t - Second)) d.
Proof.
  unfold matches, sweep_filter. simpl. rewrite expirationThreshold_second. f_equal.
  destruct (Z.ltb_spec (Timestamp d) (expirationThreshold ar t)),
    (Z.leb_spec (Timestamp d) (expirationThreshold ar t - 1)); (done || lia).
Qed.

(** X16. The variant with the mutex is [create_auction.go] one second
    behind: a sweep of the one at a clock reading matches, closes and
    counts exactly what a sweep of the other does at the reading one
    second earlier, whatever the interval. *)
Theorem guarded_one_second_behind ar e w :
  (∀ d, matches (sweep_filter Guarded ar (now e)) d
        = matches (sweep_filter Plain ar (now e - Second)) d) ∧
  store (closeExpiredAuctions Guarded ar e w)
  = store (closeExpiredAuctions Plain ar
             {| now := now e - Second; now_logged := now_logged e; fault := fault e |} w) ∧
  ModifiedCount (UpdateMany (fault e) (sweep_filter Guarded ar (now e)) sweep_update w).1.1
  = ModifiedCount
      (UpdateMany (fault e) (sweep_filter Plain ar (now e - Second)) sweep_update w).1.1.
Proof.
  split; [intros d; apply guarded_matches_plain|]. split.
  - rewrite !sweep_store. simpl. destruct (fault e); [done|].
    apply map_fmap_ext. intros id d _. unfold update_doc.
    by rewrite guarded_matches_plain.
  - unfold UpdateMany, UpdateMany_answer, UpdateMany_request.
    destruct (fault e); [done|]. simpl.
    rewrite !count_modifies_matches. apply count_docs_ext. intros id d _.
    apply guarded_matches_plain.
Qed.
